(** * TrenchBroom: IO/NodeSerializer.cpp

    A shallow embedding of [TrenchBroom::IO::NodeSerializer] and of its nested
    [IdManager], followed by the properties of the serializer.

    The serializer is an abstract class: the literal encoding is done by the
    pure virtual hooks [doBeginFile], [doEndFile], [doBeginEntity],
    [doEndEntity], [doEntityProperty], [doBrush] and [doBrushFace].  A call of
    a hook is recorded as an event in the output of the state, so that the
    order and the arguments of the hook calls can be stated.  The members of
    the class are private to it: a hook is taken to leave them as they are. *)

From Stdlib Require Import ZArith NArith Lia String Ascii List.
From stdpp Require Import base gmap strings list pretty.

Local Open Scope string_scope.
Local Open Scope list_scope.

(** ** Declarations outside this translation unit *)

(** [Model::IdType] (Model/IdType.h), [NodeSerializer::ObjectNo]
    (IO/NodeSerializer.h) and [size_t] are unsigned integer types of a fixed
    width.  The headers are not part of the sources at hand: the widths are
    parameters, at least one bit each.  [Color] is a vector of floats and
    [Color_to_string] its [kdl::str_to_string]; [BrushFace] is only handed
    over to [doBrushFace]; [kdl::str_escape_if_necessary], the escaping of the
    characters of its second argument, lives in kdl/string_format.h. *)
Class Platform := {
  IdType_bits : positive;
  ObjectNo_bits : positive;
  size_t_bits : positive;
  Color : Type;
  Color_to_string : Color → string;
  BrushFace : Type;
  str_escape_if_necessary : string → string → string;
}.

Module PropertyKeys.
(** The keys of Model/EntityProperties.h whose spelling is not known here. *)
Class Names := {
  Classname : string;
  GroupType : string;
  LayerName : string;
  LayerId : string;
  LayerSortIndex : string;
  GroupName : string;
  GroupId : string;
  Layer : string;
  Group : string;
}.

(** Modelled from the spec: the four keys that carry the state of the
    default layer on the world entity (Model/EntityProperties.h is not part
    of the sources), spelled as the spec spells them. *)
Definition LayerColor : string := "_tb_layer_color".
Definition LayerLocked : string := "_tb_layer_locked".
Definition LayerHidden : string := "_tb_layer_hidden".
Definition LayerOmitFromExport : string := "_tb_layer_omit_from_export".
End PropertyKeys.

Module PropertyValues.
(** The values of Model/EntityProperties.h whose spelling is not known here. *)
Class Names := {
  LayerClassname : string;
  GroupClassname : string;
  GroupTypeLayer : string;
  GroupTypeGroup : string;
}.

(** Modelled from the spec: the value of a set flag is "1"
    (Model/EntityProperties.h is not part of the sources). *)
Definition LayerLockedValue : string := "1".
Definition LayerHiddenValue : string := "1".
Definition LayerOmitFromExportValue : string := "1".
End PropertyValues.

(** Unsigned arithmetic of a [bits]-wide integer type: [++] wraps around. *)
Definition wrap (bits : positive) (n : N) : N := (n mod 2 ^ Npos bits)%N.
Definition incr (bits : positive) (n : N) : N := wrap bits (n + 1).

(** ** The data model (namespace Model) *)

(** The address of a node: nodes are told apart by reference, not by value. *)
Definition Addr := N.

(** A pointer that may be null. *)
Definition ptr (T : Type) := option T.
Definition nullptr {T : Type} : ptr T := None.

(** Model/EntityProperties.h: a key and a value. *)
Record EntityProperty := mkEntityProperty { key : string; value : string }.

#[global] Instance EntityProperty_eq_dec : EqDecision EntityProperty.
Proof. solve_decision. Defined.

(** Modelled from the spec: Model/LockState.h is not part of the sources; the
  serializer only asks whether the state is [Lock_Locked]. *)
Inductive LockState := Lock_Locked | Lock_Unlocked.

#[global] Instance LockState_eq_dec : EqDecision LockState.
Proof. solve_decision. Defined.

Section NodeSerializer.
Context {platform : Platform}.

(** Modelled from the spec: the data of a layer as far as the serializer
    reads it (Model/Layer.h is not part of the sources): an optional color,
    an optional sort index and the omit-from-export flag. *)
Record Layer := mkLayer {
  color : option Color;
  sortIndex_opt : option Z;
  omitFromExport : bool;
}.

Definition hasSortIndex (l : Layer) : bool := bool_decide (is_Some (sortIndex_opt l)).
Definition sortIndex (l : Layer) : Z := default 0%Z (sortIndex_opt l).

(** Modelled from the spec: an entity as far as the serializer reads it
    (Model/Entity.h is not part of the sources): its ordered properties. *)
Record Entity := mkEntity { properties : list EntityProperty }.

Record BrushNode := mkBrushNode { brush_addr : Addr }.

(** The node classes, over the type [T] of the children.  The name, the lock
    state and the hidden flag of a layer are asked of the node, the color, the
    sort index and the omit-from-export flag of its [Layer]. *)
Record LayerNode_ (T : Type) := mkLayerNode {
  layer_addr : Addr;
  layer_name : string;
  layer_lockState : LockState;
  layer_hidden : bool;
  layer : Layer;
  layer_children : list T;
}.

Record GroupNode_ (T : Type) := mkGroupNode {
  group_addr : Addr;
  group_name : string;
  group_children : list T;
}.

Record EntityNode_ (T : Type) := mkEntityNode {
  entity_addr : Addr;
  entity_entity : Entity;
  entity_children : list T;
}.

Record WorldNode_ (T : Type) := mkWorldNode {
  world_addr : Addr;
  world_entity : Entity;
  world_defaultLayer : LayerNode_ T;
  world_children : list T;
}.

Arguments layer_addr {T} _.
Arguments layer_name {T} _.
Arguments layer_lockState {T} _.
Arguments layer_hidden {T} _.
Arguments layer {T} _.
Arguments layer_children {T} _.
Arguments group_addr {T} _.
Arguments group_name {T} _.
Arguments group_children {T} _.
Arguments entity_addr {T} _.
Arguments entity_entity {T} _.
Arguments entity_children {T} _.
Arguments world_addr {T} _.
Arguments world_entity {T} _.
Arguments world_defaultLayer {T} _.
Arguments world_children {T} _.
Arguments mkLayerNode {T} _ _ _ _ _ _.
Arguments mkGroupNode {T} _ _ _.
Arguments mkEntityNode {T} _ _ _.
Arguments mkWorldNode {T} _ _ _ _.

(** [Model::Node] with its five subclasses. *)
#[warnings="-register-all"]
Inductive Node :=
| World (w : WorldNode_ Node)
| LayerN (l : LayerNode_ Node)
| GroupN (g : GroupNode_ Node)
| EntityN (e : EntityNode_ Node)
| Brush (b : BrushNode).

Definition WorldNode := WorldNode_ Node.
Definition LayerNode := LayerNode_ Node.
Definition GroupNode := GroupNode_ Node.
Definition EntityNode := EntityNode_ Node.

(** The address a node pointer holds. *)
Definition addr_of (n : Node) : Addr :=
  match n with
  | World w => world_addr w
  | LayerN l => layer_addr l
  | GroupN g => group_addr g
  | EntityN e => entity_addr e
  | Brush b => brush_addr b
  end.

(** [Node::children]: a brush has none. *)
Definition children (n : Node) : list Node :=
  match n with
  | World w => world_children w
  | LayerN l => layer_children l
  | GroupN g => group_children g
  | EntityN e => entity_children e
  | Brush _ => []
  end.

(** Modelled from the spec: [Entity::addOrUpdateProperty] and
    [Entity::removeProperty] (Model/Entity.cpp is not part of the sources).
    Setting a key replaces the value where the key is found and appends the
    pair only when the key is absent; removing a key removes it fully. *)
Fixpoint addOrUpdate (k v : string) (ps : list EntityProperty) : list EntityProperty :=
  match ps with
  | [] => [mkEntityProperty k v]
  | p :: ps' =>
      if decide (key p = k) then mkEntityProperty k v :: ps'
      else p :: addOrUpdate k v ps'
  end.

Definition addOrUpdateProperty (k v : string) (e : Entity) : Entity :=
  mkEntity (addOrUpdate k v (properties e)).

Definition removeProperty (k : string) (e : Entity) : Entity :=
  mkEntity (filter (λ p, key p ≠ k) (properties e)).

(** ** The hooks of the format strategy *)

Inductive Event :=
| doBeginFile (rootNodes : list (ptr Node))
| doEndFile
| doBeginEntity (node : ptr Node)
| doEndEntity (node : ptr Node)
| doEntityProperty (property : EntityProperty)
| doBrush (brushNode : ptr BrushNode)
| doBrushFace (face : BrushFace).

(** ** NodeSerializer::IdManager *)

(** [m_ids], a mutable map from node pointers to id strings. *)
Record IdManager := mkIdManager { m_ids : gmap Addr string }.

(** [static Model::IdType currentId = 1; return currentId++;]
    The counter is a static local of the member function: there is one for
    the whole process, whichever [IdManager] calls.  The function is given
    the counter and returns the id with the counter after the call. *)
Definition makeId (currentId : N) : N * N := (currentId, incr IdType_bits currentId).

(** Modelled from the spec: [kdl::str_to_string] (kdl/string_utils.h is not
    part of the sources) gives the decimal form of an integer. *)
Definition idToString (nodeId : N) : string := pretty nodeId.

Definition getId (self : IdManager) (t : Addr) (currentId : N) : string * IdManager * N :=
  match m_ids self !! t with
  | Some s => (s, self, currentId)
  | None =>
      let '(nodeId, currentId') := makeId currentId in
      let s := idToString nodeId in
      (s, mkIdManager (<[t := s]> (m_ids self)), currentId')
  end.

Context {keys : PropertyKeys.Names} {values : PropertyValues.Names}.

(** ** NodeSerializer *)

(** The members of the class. *)
Record Members := mkMembers {
  m_entityNo : N;
  m_brushNo : N;
  m_exporting : bool;
  m_layerIds : IdManager;
  m_groupIds : IdManager;
}.

(** What a member function can read and write: the static counter of
    [IdManager::makeId], the object, and the calls of the hooks made so far
    (the latest call last). *)
Record State := mkState {
  currentId : N;
  this : Members;
  output : list Event;
}.

Definition M (A : Type) : Type := State → A * State.

#[local] Instance M_ret : MRet M := λ A a st, (a, st).
#[local] Instance M_bind : MBind M := λ A B f m st, let '(a, st') := m st in f a st'.

Definition exec {A} (m : M A) (st : State) : State := (m st).2.
Definition result {A} (m : M A) (st : State) : A := (m st).1.

Definition get_this : M Members := λ st, (this st, st).
Definition modify_this (f : Members → Members) : M unit :=
  λ st, (tt, mkState (currentId st) (f (this st)) (output st)).
Definition hook (e : Event) : M unit :=
  λ st, (tt, mkState (currentId st) (this st) (output st ++ [e])).

Definition set_entityNo (n : N) (o : Members) : Members :=
  mkMembers n (m_brushNo o) (m_exporting o) (m_layerIds o) (m_groupIds o).
Definition set_brushNo (n : N) (o : Members) : Members :=
  mkMembers (m_entityNo o) n (m_exporting o) (m_layerIds o) (m_groupIds o).
Definition set_exporting (b : bool) (o : Members) : Members :=
  mkMembers (m_entityNo o) (m_brushNo o) b (m_layerIds o) (m_groupIds o).
Definition set_layerIds (i : IdManager) (o : Members) : Members :=
  mkMembers (m_entityNo o) (m_brushNo o) (m_exporting o) i (m_groupIds o).
Definition set_groupIds (i : IdManager) (o : Members) : Members :=
  mkMembers (m_entityNo o) (m_brushNo o) (m_exporting o) (m_layerIds o) i.

(** [m_layerIds.getId(t)] and [m_groupIds.getId(t)]. *)
Definition layerIds_getId (t : Addr) : M string := λ st,
  let '(s, ids, c) := getId (m_layerIds (this st)) t (currentId st) in
  (s, mkState c (set_layerIds ids (this st)) (output st)).

Definition groupIds_getId (t : Addr) : M string := λ st,
  let '(s, ids, c) := getId (m_groupIds (this st)) t (currentId st) in
  (s, mkState c (set_groupIds ids (this st)) (output st)).

(** A range-based [for] loop. *)
Fixpoint for_each {A} (l : list A) (body : A → M unit) : M unit :=
  match l with
  | [] => mret tt
  | x :: l' => body x ;; for_each l' body
  end.

(** The constructor: both counters 0, not exporting, no ids. *)
Definition NodeSerializer_new : Members :=
  mkMembers 0 0 false (mkIdManager ∅) (mkIdManager ∅).

Definition entityNo : M N := o ← get_this; mret (m_entityNo o).
Definition brushNo : M N := o ← get_this; mret (m_brushNo o).
Definition exporting : M bool := o ← get_this; mret (m_exporting o).
Definition setExporting (b : bool) : M unit := modify_this (set_exporting b).

Definition beginFile (rootNodes : list (ptr Node)) : M unit :=
  modify_this (set_entityNo 0);;
  modify_this (set_brushNo 0);;
  hook (doBeginFile rootNodes).

Definition endFile : M unit := hook doEndFile.

Definition beginEntity (node : ptr Node) : M unit :=
  modify_this (set_brushNo 0);;
  hook (doBeginEntity node).

Definition endEntity (node : ptr Node) : M unit :=
  hook (doEndEntity node);;
  modify_this (λ o, set_entityNo (incr ObjectNo_bits (m_entityNo o)) o).

Definition entityProperty (property : EntityProperty) : M unit :=
  hook (doEntityProperty property).

Definition entityProperties (props : list EntityProperty) : M unit :=
  for_each props entityProperty.

Definition beginEntity_with (node : ptr Node)
    (props extraAttributes : list EntityProperty) : M unit :=
  beginEntity node;;
  entityProperties props;;
  entityProperties extraAttributes.

Definition brush (brushNode : ptr BrushNode) : M unit :=
  hook (doBrush brushNode);;
  modify_this (λ o, set_brushNo (incr ObjectNo_bits (m_brushNo o)) o).

Definition brushes (brushNodes : list (ptr BrushNode)) : M unit :=
  for_each brushNodes brush.

Definition brushFace (face : BrushFace) : M unit := hook (doBrushFace face).

Definition brushFaces (faces : list BrushFace) : M unit := for_each faces brushFace.

(** [Node::accept] with a [kdl::overload] of five lambdas, one per class. *)
Definition accept {A} (n : Node)
    (onWorld : WorldNode → A) (onLayer : LayerNode → A) (onGroup : GroupNode → A)
    (onEntity : EntityNode → A) (onBrush : BrushNode → A) : A :=
  match n with
  | World w => onWorld w
  | LayerN l => onLayer l
  | GroupN g => onGroup g
  | EntityN e => onEntity e
  | Brush b => onBrush b
  end.

(** [Node::visitChildren]: every direct child accepts the visitor, in order. *)
Definition visitChildren (n : Node) (visitor : Node → M unit) : M unit :=
  for_each (children n) visitor.

Definition entity (node : ptr Node) (props parentProps : list EntityProperty)
    (brushParent : Node) : M unit :=
  beginEntity_with node props parentProps;;
  visitChildren brushParent (λ child,
    accept child
      (λ _, mret tt)
      (λ _, mret tt)
      (λ _, mret tt)
      (λ _, mret tt)
      (λ b, brush (Some b)));;
  endEntity node.

Definition entity_brushes (node : ptr Node) (props parentProps : list EntityProperty)
    (entityBrushes : list (ptr BrushNode)) : M unit :=
  beginEntity_with node props parentProps;;
  brushes entityBrushes;;
  endEntity node.

(** The pure part of [defaultLayer] (lines 94 to 125): a copy of the entity of
    the world takes over the color, the lock state, the hidden state and the
    omit-from-export flag of the default layer. *)
Definition defaultLayer_worldEntity (world : WorldNode) : Entity :=
  let worldEntity := world_entity world in
  let defaultLayerNode := world_defaultLayer world in
  let defaultLayer := layer defaultLayerNode in
  let worldEntity :=
    match color defaultLayer with
    | Some c => addOrUpdateProperty PropertyKeys.LayerColor (Color_to_string c) worldEntity
    | None => removeProperty PropertyKeys.LayerColor worldEntity
    end in
  let worldEntity :=
    if decide (layer_lockState defaultLayerNode = Lock_Locked)
    then addOrUpdateProperty PropertyKeys.LayerLocked PropertyValues.LayerLockedValue worldEntity
    else removeProperty PropertyKeys.LayerLocked worldEntity in
  let worldEntity :=
    if layer_hidden defaultLayerNode
    then addOrUpdateProperty PropertyKeys.LayerHidden PropertyValues.LayerHiddenValue worldEntity
    else removeProperty PropertyKeys.LayerHidden worldEntity in
  let worldEntity :=
    if omitFromExport defaultLayer
    then addOrUpdateProperty PropertyKeys.LayerOmitFromExport
           PropertyValues.LayerOmitFromExportValue worldEntity
    else removeProperty PropertyKeys.LayerOmitFromExport worldEntity in
  worldEntity.

(** Writes the worldspawn entity. *)
Definition defaultLayer (world : WorldNode) : M unit :=
  let worldEntity := defaultLayer_worldEntity world in
  let defaultLayer := layer (world_defaultLayer world) in
  o ← get_this;
  if m_exporting o && omitFromExport defaultLayer then
    beginEntity_with (Some (World world)) (properties worldEntity) [];;
    endEntity (Some (World world))
  else
    entity (Some (World world)) (properties worldEntity) []
      (LayerN (world_defaultLayer world)).

Definition layerProperties (layerNode : LayerNode) : M (list EntityProperty) :=
  id ← layerIds_getId (addr_of (LayerN layerNode));
  let result := [
    mkEntityProperty PropertyKeys.Classname PropertyValues.LayerClassname;
    mkEntityProperty PropertyKeys.GroupType PropertyValues.GroupTypeLayer;
    mkEntityProperty PropertyKeys.LayerName (layer_name layerNode);
    mkEntityProperty PropertyKeys.LayerId id ] in
  let layer := layer layerNode in
  let result :=
    if hasSortIndex layer
    then result ++ [mkEntityProperty PropertyKeys.LayerSortIndex (pretty (sortIndex layer))]
    else result in
  let result :=
    if decide (layer_lockState layerNode = Lock_Locked)
    then result ++ [mkEntityProperty PropertyKeys.LayerLocked PropertyValues.LayerLockedValue]
    else result in
  let result :=
    if layer_hidden layerNode
    then result ++ [mkEntityProperty PropertyKeys.LayerHidden PropertyValues.LayerHiddenValue]
    else result in
  let result :=
    if omitFromExport layer
    then result ++ [mkEntityProperty PropertyKeys.LayerOmitFromExport
                      PropertyValues.LayerOmitFromExportValue]
    else result in
  mret result.

Definition groupProperties (group : GroupNode) : M (list EntityProperty) :=
  id ← groupIds_getId (addr_of (GroupN group));
  mret [
    mkEntityProperty PropertyKeys.Classname PropertyValues.GroupClassname;
    mkEntityProperty PropertyKeys.GroupType PropertyValues.GroupTypeGroup;
    mkEntityProperty PropertyKeys.GroupName (group_name group);
    mkEntityProperty PropertyKeys.GroupId id ].

Definition customLayer (layer_ : LayerNode) : M unit :=
  o ← get_this;
  if negb (m_exporting o && omitFromExport (layer layer_)) then
    props ← layerProperties layer_;
    entity (Some (LayerN layer_)) props [] (LayerN layer_)
  else mret tt.

Definition group (group_ : GroupNode) (parentProps : list EntityProperty) : M unit :=
  props ← groupProperties group_;
  entity (Some (GroupN group_)) props parentProps (GroupN group_).

Definition parentProperties (node : ptr Node) : M (list EntityProperty) :=
  match node with
  | None => mret []
  | Some n =>
      let props : list EntityProperty := [] in
      accept n
        (λ _, mret props)
        (λ layer_, id ← layerIds_getId (addr_of (LayerN layer_));
                   mret (props ++ [mkEntityProperty PropertyKeys.Layer id]))
        (λ group_, id ← groupIds_getId (addr_of (GroupN group_));
                   mret (props ++ [mkEntityProperty PropertyKeys.Group id]))
        (λ _, mret props)
        (λ _, mret props)
  end.

(** *** escapeEntityProperties *)

(** The backslash, and the string that holds the one double quote character,
    which has the code 34. *)
Definition backslash : ascii := "\"%char.
Definition quote : string := String "034"%char EmptyString.

(** [std::string::npos], the greatest value of [size_t]. *)
Definition npos : N := 2 ^ Npos size_t_bits - 1.

(** [a - b] on [size_t]. *)
Definition size_t_sub (a b : N) : N :=
  Z.to_N ((Z.of_N a - Z.of_N b) mod 2 ^ Zpos size_t_bits).

(** [std::string::find_last_not_of(c)]: the greatest index that holds another
    character than [c], [npos] when there is none.  The scan carries the index
    [i] of the head of [s] and the answer [found] for what lies before it. *)
Fixpoint find_last_not_of_from (s : string) (c : ascii) (i found : N) : N :=
  match s with
  | EmptyString => found
  | String a s' => find_last_not_of_from s' c (i + 1) (if decide (a = c) then found else i)
  end.

Definition find_last_not_of (s : string) (c : ascii) : N :=
  find_last_not_of_from s c 0 npos.

(** [std::string::size]. *)
Definition size (s : string) : N := N.of_nat (String.length s).

Definition escapeEntityProperties (str : string) : string :=
  let l := size str in
  if bool_decide (0 < l)%N && bool_decide (String.get (N.to_nat (l - 1)) str = Some backslash) then
    let p := find_last_not_of str backslash in
    if bool_decide ((size_t_sub l p) mod 2 = 0)%N then
      str_escape_if_necessary (String.substring 0 (N.to_nat (l - 1)) str) quote
    else
      str_escape_if_necessary str quote
  else
    str_escape_if_necessary str quote.

(** ** Call sequences *)

(** The member functions as data, to speak about every sequence of calls.
    [other_makeId] stands for a draw from the static counter by an
    [IdManager] of another serializer of the process. *)
Inductive Call :=
| call_entityNo
| call_brushNo
| call_exporting
| call_setExporting (b : bool)
| call_beginFile (rootNodes : list (ptr Node))
| call_endFile
| call_defaultLayer (world : WorldNode)
| call_customLayer (layer_ : LayerNode)
| call_group (group_ : GroupNode) (parentProps : list EntityProperty)
| call_entity (node : ptr Node) (props parentProps : list EntityProperty) (brushParent : Node)
| call_entity_brushes (node : ptr Node) (props parentProps : list EntityProperty)
    (entityBrushes : list (ptr BrushNode))
| call_beginEntity_with (node : ptr Node) (props extraAttributes : list EntityProperty)
| call_beginEntity (node : ptr Node)
| call_endEntity (node : ptr Node)
| call_entityProperties (props : list EntityProperty)
| call_entityProperty (property : EntityProperty)
| call_brushes (brushNodes : list (ptr BrushNode))
| call_brush (brushNode : ptr BrushNode)
| call_brushFaces (faces : list BrushFace)
| call_brushFace (face : BrushFace)
| call_parentProperties (node : ptr Node)
| call_layerProperties (layerNode : LayerNode)
| call_groupProperties (group_ : GroupNode)
| call_escapeEntityProperties (str : string)
| other_makeId.

Definition discard {A} (m : M A) : M unit := m ≫= λ _, mret tt.

Definition run (c : Call) : M unit :=
  match c with
  | call_entityNo => discard entityNo
  | call_brushNo => discard brushNo
  | call_exporting => discard exporting
  | call_setExporting b => setExporting b
  | call_beginFile rootNodes => beginFile rootNodes
  | call_endFile => endFile
  | call_defaultLayer world => defaultLayer world
  | call_customLayer layer_ => customLayer layer_
  | call_group group_ parentProps => group group_ parentProps
  | call_entity node props parentProps brushParent => entity node props parentProps brushParent
  | call_entity_brushes node props parentProps entityBrushes =>
      entity_brushes node props parentProps entityBrushes
  | call_beginEntity_with node props extraAttributes => beginEntity_with node props extraAttributes
  | call_beginEntity node => beginEntity node
  | call_endEntity node => endEntity node
  | call_entityProperties props => entityProperties props
  | call_entityProperty property => entityProperty property
  | call_brushes brushNodes => brushes brushNodes
  | call_brush brushNode => brush brushNode
  | call_brushFaces faces => brushFaces faces
  | call_brushFace face => brushFace face
  | call_parentProperties node => discard (parentProperties node)
  | call_layerProperties layerNode => discard (layerProperties layerNode)
  | call_groupProperties group_ => discard (groupProperties group_)
  | call_escapeEntityProperties str => discard (mret (escapeEntityProperties str))
  | other_makeId => λ st, (tt, mkState (makeId (currentId st)).2 (this st) (output st))
  end.

Definition run_all (cs : list Call) : M unit := for_each cs run.

(** A fresh process with a newly constructed serializer. *)
Definition initial : State := mkState 1 NodeSerializer_new [].

End NodeSerializer.

Arguments layer_addr {_ _} _.
Arguments layer_name {_ _} _.
Arguments layer_lockState {_ _} _.
Arguments layer_hidden {_ _} _.
Arguments layer {_ _} _.
Arguments layer_children {_ _} _.
Arguments group_addr {_} _.
Arguments group_name {_} _.
Arguments group_children {_} _.
Arguments entity_addr {_} _.
Arguments entity_entity {_} _.
Arguments entity_children {_} _.
Arguments world_addr {_ _} _.
Arguments world_entity {_ _} _.
Arguments world_defaultLayer {_ _} _.
Arguments world_children {_ _} _.
Arguments mkLayerNode {_ _} _ _ _ _ _ _.
Arguments mkGroupNode {_} _ _ _.
Arguments mkEntityNode {_} _ _ _.
Arguments mkWorldNode {_ _} _ _ _ _.

#[global] Existing Instance M_ret.
#[global] Existing Instance M_bind.

(** ** Notions the properties are stated with *)

Section Notions.
Context {platform : Platform} {keys : PropertyKeys.Names}
  {values : PropertyValues.Names}.

(** [n] increments of an object number. *)
Definition incr_n (n : nat) (k : N) : N := Nat.iter n (incr ObjectNo_bits) k.

(** The direct children of a node that are brushes, in order. *)
Definition brush_children (n : Node) : list BrushNode :=
  omap (λ c, match c with Brush b => Some b | _ => None end) (children n).

(** The visitor of [entity]: [brush] for a brush, nothing for the rest. *)
Definition entity_visitor (child : Node) : M unit :=
  accept child (λ _, mret tt) (λ _, mret tt) (λ _, mret tt) (λ _, mret tt)
    (λ b, brush (Some b)).

(** Whether a node is a [BrushNode]. *)
Definition is_brush (c : Node) : bool :=
  match c with Brush _ => true | _ => false end.

(** The record of a custom layer as the spec lists it: class name, group
    type, name and id, then the sort index if the layer declares one, then
    the locked, hidden and omit-from-export flags that are set. *)
Definition layer_record (l : LayerNode) (id : string) : list EntityProperty :=
  [ mkEntityProperty PropertyKeys.Classname PropertyValues.LayerClassname;
    mkEntityProperty PropertyKeys.GroupType PropertyValues.GroupTypeLayer;
    mkEntityProperty PropertyKeys.LayerName (layer_name l);
    mkEntityProperty PropertyKeys.LayerId id ]
  ++ match sortIndex_opt (layer l) with
     | Some i => [mkEntityProperty PropertyKeys.LayerSortIndex (pretty i)]
     | None => []
     end
  ++ (if decide (layer_lockState l = Lock_Locked)
      then [mkEntityProperty PropertyKeys.LayerLocked PropertyValues.LayerLockedValue]
      else [])
  ++ (if layer_hidden l
      then [mkEntityProperty PropertyKeys.LayerHidden PropertyValues.LayerHiddenValue]
      else [])
  ++ (if omitFromExport (layer l)
      then [mkEntityProperty PropertyKeys.LayerOmitFromExport
              PropertyValues.LayerOmitFromExportValue]
      else []).

(** One step of the overlay: the key is set when its condition holds and
    removed otherwise. *)
Definition overlay (cond : bool) (k v : string) (ps : list EntityProperty) :
    list EntityProperty :=
  if cond then addOrUpdate k v ps else filter (λ p, key p ≠ k) ps.

(** The four keys the default layer decides. *)
Definition derived_keys : list string :=
  [ PropertyKeys.LayerColor; PropertyKeys.LayerLocked;
    PropertyKeys.LayerHidden; PropertyKeys.LayerOmitFromExport ].

(** The keys of the world that the default layer does not decide. *)
Definition own_key (k : string) : bool := bool_decide (k ∉ derived_keys).

(** The events a computation adds to the output. *)
Definition events_of {A} (m : M A) (st : State) : list Event :=
  drop (length (output st)) (output (exec m st)).

(** The properties handed to [doEntityProperty], in order. *)
Definition emitted_properties (evs : list Event) : list EntityProperty :=
  omap (λ e, match e with doEntityProperty p => Some p | _ => None end) evs.

(** The brushes handed to [doBrush], in order. *)
Definition emitted_brushes (evs : list Event) : list (ptr BrushNode) :=
  omap (λ e, match e with doBrush b => Some b | _ => None end) evs.

(** [entityNo()] and [brushNo()] in a state. *)
Definition counters (st : State) : N * N := (result entityNo st, result brushNo st).

(** The object numbers as the spec describes them, one call at a time:
    [beginFile] sets both to 0, [endEntity] adds one to the entity number,
    [beginEntity] sets the brush number to 0, [brush] adds one to the brush
    number, and nothing else touches them.  Every one of these four calls its
    hook once, and no other function calls these hooks. *)
Definition count_event (c : N * N) (e : Event) : N * N :=
  match e with
  | doBeginFile _ => (0%N, 0%N)
  | doEndEntity _ => (incr ObjectNo_bits c.1, c.2)
  | doBeginEntity _ => (c.1, 0%N)
  | doBrush _ => (c.1, incr ObjectNo_bits c.2)
  | doEndFile | doEntityProperty _ | doBrushFace _ => c
  end.

(** The object numbers after a run of hook calls. *)
Definition count_events (c : N * N) (evs : list Event) : N * N := foldl count_event c evs.

(** The hooks of the four calls that set the object numbers. *)
Definition counts (e : Event) : bool :=
  match e with
  | doBeginFile _ | doEndEntity _ | doBeginEntity _ | doBrush _ => true
  | doEndFile | doEntityProperty _ | doBrushFace _ => false
  end.

(** The calls that are [beginFile], [beginEntity], [endEntity] or [brush],
    or that are made of them. *)
Definition counting (c : Call) : bool :=
  match c with
  | call_beginFile _ | call_beginEntity _ | call_endEntity _ | call_brush _
  | call_beginEntity_with _ _ _ | call_brushes _
  | call_entity _ _ _ _ | call_entity_brushes _ _ _ _
  | call_defaultLayer _ | call_customLayer _ | call_group _ _ => true
  | _ => false
  end.

(** A computation whose effect on the object numbers is the one of the
    events it adds to the output. *)
Definition tracks {A} (m : M A) : Prop :=
  ∀ st, ∃ evs,
    output (exec m st) = output st ++ evs
    ∧ counters (exec m st) = count_events (counters st) evs.

(** The ids a manager holds were drawn below the counter. *)
Definition ids_below (c : N) (ids : IdManager) : Prop :=
  ∀ t s, m_ids ids !! t = Some s → ∃ k, (k < c)%N ∧ s = idToString k.

(** No two nodes hold the same id. *)
Definition ids_injective (ids : IdManager) : Prop :=
  ∀ t1 t2 s, m_ids ids !! t1 = Some s → m_ids ids !! t2 = Some s → t1 = t2.

(** A manager in order: the counter has not wrapped around since the ids the
    manager holds were drawn, and the ids differ from node to node. *)
Definition IdManager_ok (c : N) (ids : IdManager) : Prop :=
  (c < 2 ^ Npos IdType_bits)%N ∧ ids_below c ids ∧ ids_injective ids.

(** No id is held by both managers. *)
Definition ids_apart (a b : IdManager) : Prop :=
  ∀ t1 t2 s, m_ids a !! t1 = Some s → m_ids b !! t2 = Some s → False.

(** Both managers of the serializer in order, with no id in common. *)
Definition ids_ok (st : State) : Prop :=
  IdManager_ok (currentId st) (m_layerIds (this st))
  ∧ IdManager_ok (currentId st) (m_groupIds (this st))
  ∧ ids_apart (m_layerIds (this st)) (m_groupIds (this st)).

(** The part of the state the ids live in: the static counter and the two
    managers. *)
Definition ids_of (st : State) : N * IdManager * IdManager :=
  (currentId st, m_layerIds (this st), m_groupIds (this st)).

(** What a call does to that part. *)
Inductive IdEffect :=
| ids_kept
| ids_layer (t : Addr)
| ids_group (t : Addr)
| ids_drawn.

(** The one manager a call asks for an id, if any. *)
Definition id_effect (c : Call) (st : State) : IdEffect :=
  match c with
  | call_customLayer l =>
      if m_exporting (this st) && omitFromExport (layer l) then ids_kept
      else ids_layer (layer_addr l)
  | call_group g _ => ids_group (group_addr g)
  | call_parentProperties (Some (LayerN l)) => ids_layer (layer_addr l)
  | call_parentProperties (Some (GroupN g)) => ids_group (group_addr g)
  | call_layerProperties l => ids_layer (layer_addr l)
  | call_groupProperties g => ids_group (group_addr g)
  | other_makeId => ids_drawn
  | _ => ids_kept
  end.

(** The counter and the managers after the effect. *)
Definition apply_id_effect (e : IdEffect) (i : N * IdManager * IdManager) :
    N * IdManager * IdManager :=
  match e with
  | ids_kept => i
  | ids_layer t => let r := getId i.1.2 t i.1.1 in (r.2, r.1.2, i.2)
  | ids_group t => let r := getId i.2 t i.1.1 in (r.2, i.1.2, r.1.2)
  | ids_drawn => ((makeId i.1.1).2, i.1.2, i.2)
  end.

(** A computation that leaves the ids alone. *)
Definition frames {A} (m : M A) : Prop := ∀ st, ids_of (exec m st) = ids_of st.

(** The number of characters [c] a string starts with. *)
Fixpoint leading (c : ascii) (s : string) : nat :=
  match s with
  | EmptyString => 0
  | String a s' => if decide (a = c) then S (leading c s') else 0
  end.

(** The number of backslashes a string ends with: those its reversal starts
    with. *)
Definition trailing_backslashes (s : string) : nat :=
  leading backslash (String.rev s).

(** The string without its last character. *)
Definition without_last (s : string) : string :=
  String.substring 0 (String.length s - 1) s.

End Notions.

(** ** Notions for the rest of the serializer *)

Section FurtherNotions.
Context {platform : Platform} {keys : PropertyKeys.Names}
  {values : PropertyValues.Names}.

(** The record of a group: class name, group type, name and id. *)
Definition group_record (g : GroupNode) (id : string) : list EntityProperty :=
  [ mkEntityProperty PropertyKeys.Classname PropertyValues.GroupClassname;
    mkEntityProperty PropertyKeys.GroupType PropertyValues.GroupTypeGroup;
    mkEntityProperty PropertyKeys.GroupName (group_name g);
    mkEntityProperty PropertyKeys.GroupId id ].

(** The keys a layer record can hold, and those of a group record. *)
Definition layer_record_keys : list string :=
  [ PropertyKeys.Classname; PropertyKeys.GroupType; PropertyKeys.LayerName;
    PropertyKeys.LayerId; PropertyKeys.LayerSortIndex; PropertyKeys.LayerLocked;
    PropertyKeys.LayerHidden; PropertyKeys.LayerOmitFromExport ].

Definition group_record_keys : list string :=
  [ PropertyKeys.Classname; PropertyKeys.GroupType; PropertyKeys.GroupName;
    PropertyKeys.GroupId ].

(** The calls of [setExporting]. *)
Definition sets_exporting (c : Call) : bool :=
  match c with call_setExporting _ => true | _ => false end.

(** A computation that leaves the exporting flag alone. *)
Definition keeps_exporting {A} (m : M A) : Prop :=
  ∀ st, m_exporting (this (exec m st)) = m_exporting (this st).

(** The calls that write one entity as a whole. *)
Definition writes_entity (c : Call) : bool :=
  match c with
  | call_defaultLayer _ | call_customLayer _ | call_group _ _
  | call_entity _ _ _ _ | call_entity_brushes _ _ _ _ => true
  | _ => false
  end.

(** The hook calls of one entity: begin, properties, brushes, end, for one
    and the same node. *)
Inductive is_record : list Event → Prop :=
| is_record_intro (node : ptr Node) (props : list EntityProperty)
    (bs : list (ptr BrushNode)) :
    is_record ([doBeginEntity node] ++ map doEntityProperty props
               ++ map doBrush bs ++ [doEndEntity node]).

(** The hook calls of [n] entities, one after the other. *)
Inductive is_records : nat → list Event → Prop :=
| is_records_nil : is_records 0 []
| is_records_app n r evs :
    is_record r → is_records n evs → is_records (S n) (r ++ evs).

(** The number of calls of [doEndEntity]. *)
Definition ended (evs : list Event) : nat :=
  length (omap (λ e, match e with doEndEntity node => Some node | _ => None end) evs).

(** A manager asked for the ids of several nodes, one after the other. *)
Fixpoint getId_all (self : IdManager) (ts : list Addr) (currentId : N) :
    list string * IdManager * N :=
  match ts with
  | [] => ([], self, currentId)
  | t :: ts' =>
      let '(s, self', currentId') := getId self t currentId in
      let '(ss, self'', currentId'') := getId_all self' ts' currentId' in
      (s :: ss, self'', currentId'')
  end.

(** The ids a manager holds are the decimal forms of numbers from 1 up to,
    but not including, the counter. *)
Definition ids_from_one (c : N) (ids : IdManager) : Prop :=
  ∀ t s, m_ids ids !! t = Some s → ∃ k, (1 ≤ k < c)%N ∧ s = idToString k.

(** The string handed to [kdl::str_escape_if_necessary]. *)
Definition escaped_part (s : string) : string :=
  if Nat.even (trailing_backslashes s) then s else without_last s.

(** How often a key occurs in a list of properties. *)
Definition occurrences (k : string) (ps : list EntityProperty) : nat :=
  length (List.filter (λ p, bool_decide (key p = k)) ps).

(** The merged list in the words of the specification: the properties of the
    world with the four derived keys overlaid in turn (color, locked, hidden,
    omit-from-export), each set when its condition holds and removed
    otherwise. *)
Definition merged_by_overlay (w : WorldNode) : list EntityProperty :=
  let l := world_defaultLayer w in
  overlay (omitFromExport (layer l)) PropertyKeys.LayerOmitFromExport
    PropertyValues.LayerOmitFromExportValue
    (overlay (layer_hidden l) PropertyKeys.LayerHidden PropertyValues.LayerHiddenValue
       (overlay (bool_decide (layer_lockState l = Lock_Locked)) PropertyKeys.LayerLocked
          PropertyValues.LayerLockedValue
          (overlay (bool_decide (is_Some (color (layer l)))) PropertyKeys.LayerColor
             (from_option Color_to_string "" (color (layer l)))
             (properties (world_entity w))))).

End FurtherNotions.

(** ** A platform to evaluate on *)

(** 64-bit ids and sizes, 32-bit object numbers, colors as their text, no
    escaping; the names are those of the spec.  Used to run the model on
    concrete inputs only. *)
Definition sample_platform : Platform := {|
  IdType_bits := 64;
  ObjectNo_bits := 32;
  size_t_bits := 64;
  Color := string;
  Color_to_string := id;
  BrushFace := unit;
  str_escape_if_necessary := λ s _, s;
|}.

Definition sample_keys : PropertyKeys.Names := {|
  PropertyKeys.Classname := "classname";
  PropertyKeys.GroupType := "group-type";
  PropertyKeys.LayerName := "layer-name";
  PropertyKeys.LayerId := "layer-id";
  PropertyKeys.LayerSortIndex := "layer-sort-index";
  PropertyKeys.GroupName := "group-name";
  PropertyKeys.GroupId := "group-id";
  PropertyKeys.Layer := "Layer";
  PropertyKeys.Group := "Group";
|}.

Definition sample_values : PropertyValues.Names := {|
  PropertyValues.LayerClassname := "layer-marker";
  PropertyValues.GroupClassname := "group-marker";
  PropertyValues.GroupTypeLayer := "layer-marker";
  PropertyValues.GroupTypeGroup := "group-marker";
|}.

Section Samples.
#[local] Existing Instance sample_platform.
#[local] Existing Instance sample_keys.
#[local] Existing Instance sample_values.

(** A locked layer with a sort index, marked omit-from-export, that holds
    two brushes and an entity with a brush of its own. *)
Definition sample_layer : LayerNode :=
  mkLayerNode 10%N "walls" Lock_Locked false (mkLayer None (Some 3%Z) true)
    [ Brush (mkBrushNode 11%N);
      EntityN (mkEntityNode 12%N (mkEntity []) [Brush (mkBrushNode 13%N)]);
      Brush (mkBrushNode 14%N) ].

Definition sample_group : GroupNode := mkGroupNode 20%N "crates" [].

(** A world whose default layer is marked omit-from-export. *)
Definition sample_world : WorldNode :=
  mkWorldNode 1%N (mkEntity [mkEntityProperty "classname" "worldspawn"])
    (mkLayerNode 2%N "Default Layer" Lock_Unlocked false (mkLayer None None true)
       [Brush (mkBrushNode 3%N)])
    [].

(** A world whose entity still carries two of the derived keys, with a
    default layer that sets none. *)
Definition sample_world_stale : WorldNode :=
  mkWorldNode 1%N
    (mkEntity [ mkEntityProperty "classname" "worldspawn";
                mkEntityProperty "_tb_layer_hidden" "1";
                mkEntityProperty "_tb_layer_color" "1 0 0 1" ])
    (mkLayerNode 2%N "Default Layer" Lock_Unlocked false (mkLayer None None false)
       [Brush (mkBrushNode 3%N)])
    [].

(** A world with a stale hidden key whose default layer is locked and marked
    omit-from-export. *)
Definition sample_world_locked : WorldNode :=
  mkWorldNode 1%N
    (mkEntity [ mkEntityProperty "classname" "worldspawn";
                mkEntityProperty "_tb_layer_hidden" "1";
                mkEntityProperty "message" "start" ])
    (mkLayerNode 2%N "Default Layer" Lock_Locked false (mkLayer None None true)
       [Brush (mkBrushNode 3%N)])
    [].

(** One layer and one group written by a new serializer. *)
Definition sample_session : list Call :=
  [call_customLayer sample_layer; call_group sample_group []].

End Samples.

(** ** Properties *)

Section Properties.
Context {platform : Platform} {keys : PropertyKeys.Names}
  {values : PropertyValues.Names}.

(** *** The state monad *)

Lemma exec_bind {A B} (m : M A) (f : A → M B) st :
  exec (m ≫= f) st = exec (f (result m st)) (exec m st).
Proof. unfold exec, result, mbind, M_bind. by destruct (m st). Qed.

Lemma result_bind {A B} (m : M A) (f : A → M B) st :
  result (m ≫= f) st = result (f (result m st)) (exec m st).
Proof. unfold exec, result, mbind, M_bind. by destruct (m st). Qed.

Lemma run_bind {A B} (m : M A) (f : A → M B) st a st' :
  m st = (a, st') → (m ≫= f) st = f a st'.
Proof. unfold mbind, M_bind. by intros ->. Qed.

Lemma exec_discard {A} (m : M A) st : exec (discard m) st = exec m st.
Proof. unfold discard. by rewrite exec_bind. Qed.

Lemma state_eta st : mkState (currentId st) (this st) (output st) = st.
Proof. by destruct st. Qed.

Lemma members_eta o :
  mkMembers (m_entityNo o) (m_brushNo o) (m_exporting o) (m_layerIds o) (m_groupIds o) = o.
Proof. by destruct o. Qed.

(** A loop whose body only calls a hook appends one event per element. *)
Lemma for_each_hook {A} (f : A → Event) (l : list A) st :
  for_each l (λ x, hook (f x)) st
  = (tt, mkState (currentId st) (this st) (output st ++ map f l)).
Proof.
  revert st. induction l as [|x l IH]; intros st; simpl.
  - by rewrite app_nil_r, state_eta.
  - erewrite run_bind; [|reflexivity]. rewrite IH. simpl. by rewrite <- app_assoc.
Qed.

Lemma run_entityProperties props st :
  entityProperties props st
  = (tt, mkState (currentId st) (this st) (output st ++ map doEntityProperty props)).
Proof. apply (for_each_hook doEntityProperty). Qed.

Lemma run_brushFaces faces st :
  brushFaces faces st
  = (tt, mkState (currentId st) (this st) (output st ++ map doBrushFace faces)).
Proof. apply (for_each_hook doBrushFace). Qed.

Lemma incr_n_S n k : incr_n (S n) k = incr_n n (incr ObjectNo_bits k).
Proof. unfold incr_n. by rewrite Nat.iter_succ_r. Qed.

Lemma run_brushes bs st :
  brushes bs st
  = (tt, mkState (currentId st)
           (set_brushNo (incr_n (length bs) (m_brushNo (this st))) (this st))
           (output st ++ map doBrush bs)).
Proof.
  unfold brushes. revert st. induction bs as [|b bs IH]; intros st.
  - simpl. rewrite app_nil_r. unfold incr_n, set_brushNo. simpl.
    by rewrite members_eta, state_eta.
  - cbn [for_each]. erewrite run_bind; [|reflexivity]. rewrite IH.
    cbn [length map]. rewrite incr_n_S. simpl. by rewrite <- app_assoc.
Qed.

Lemma run_visit_brushes (cs : list Node) st :
  for_each cs entity_visitor st
  = brushes (map Some (omap (λ c, match c with Brush b => Some b | _ => None end) cs)) st.
Proof.
  unfold brushes. revert st. induction cs as [|c cs IH]; intros st; [done|].
  cbn [for_each]. destruct c; cbn [omap map for_each entity_visitor accept];
    unfold mbind, M_bind; simpl; apply IH.
Qed.

(** What one call of [entity] does to the state. *)
Lemma run_entity node props parentProps brushParent st :
  entity node props parentProps brushParent st
  = (tt, mkState (currentId st)
           (set_entityNo (incr ObjectNo_bits (m_entityNo (this st)))
              (set_brushNo (incr_n (length (brush_children brushParent)) 0) (this st)))
           (output st ++ [doBeginEntity node]
              ++ map doEntityProperty (props ++ parentProps)
              ++ map (λ b, doBrush (Some b)) (brush_children brushParent)
              ++ [doEndEntity node])).
Proof.
  unfold entity, beginEntity_with, beginEntity, endEntity, visitChildren.
  change (λ child, accept child _ _ _ _ _) with entity_visitor.
  unfold mbind, M_bind, modify_this, hook.
  rewrite run_entityProperties. rewrite run_entityProperties.
  rewrite run_visit_brushes, run_brushes.
  unfold brush_children, set_entityNo, set_brushNo. cbn.
  rewrite length_map, map_app, map_map, <- !app_assoc. reflexivity.
Qed.

(** [beginEntity] with properties followed by [endEntity]: the entity of the
    world when the default layer is left out of an export. *)
Lemma run_entity_shell node props st :
  (beginEntity_with node props [] ;; endEntity node) st
  = (tt, mkState (currentId st)
           (set_entityNo (incr ObjectNo_bits (m_entityNo (this st)))
              (set_brushNo 0 (this st)))
           (output st ++ [doBeginEntity node] ++ map doEntityProperty props
              ++ [doEndEntity node])).
Proof.
  unfold beginEntity_with, beginEntity, endEntity.
  unfold mbind, M_bind, modify_this, hook.
  rewrite run_entityProperties. rewrite run_entityProperties.
  unfold set_entityNo, set_brushNo. cbn.
  rewrite app_nil_r, <- !app_assoc. reflexivity.
Qed.

(** The id a manager answers with, and what the call leaves behind. *)
Lemma run_layerIds_getId t st :
  layerIds_getId t st
  = let r := getId (m_layerIds (this st)) t (currentId st) in
    (r.1.1, mkState r.2 (set_layerIds r.1.2 (this st)) (output st)).
Proof. unfold layerIds_getId. by destruct (getId _ _ _) as [[??]?]. Qed.

Lemma run_groupIds_getId t st :
  groupIds_getId t st
  = let r := getId (m_groupIds (this st)) t (currentId st) in
    (r.1.1, mkState r.2 (set_groupIds r.1.2 (this st)) (output st)).
Proof. unfold groupIds_getId. by destruct (getId _ _ _) as [[??]?]. Qed.

(** *** parentProperties *)

(** C10: called with the null pointer, [parentProperties] returns the empty
    list; the node is not looked at and the state is left as it is. *)
Theorem parentProperties_nullptr st :
  parentProperties nullptr st = ([], st).
Proof. reflexivity. Qed.

(** C7: [parentProperties] of a node that is not null is empty for a world,
    an entity and a brush; for a layer it is the one pair of the [Layer] key
    and the id the layer manager gives the node; for a group it is the one
    pair of the [Group] key and the id the group manager gives the node. *)
Theorem parentProperties_by_class (n : Node) st :
  result (parentProperties (Some n)) st
  = match n with
    | World _ | EntityN _ | Brush _ => []
    | LayerN l =>
        [mkEntityProperty PropertyKeys.Layer (result (layerIds_getId (addr_of n)) st)]
    | GroupN g =>
        [mkEntityProperty PropertyKeys.Group (result (groupIds_getId (addr_of n)) st)]
    end.
Proof.
  destruct n as [w|l|g|e|b]; try reflexivity.
  - unfold parentProperties, accept. rewrite result_bind. reflexivity.
  - unfold parentProperties, accept. rewrite result_bind. reflexivity.
Qed.

(** *** entity *)

(** Which children [brush_children] keeps: the brushes, all of them, in the
    order of the children. *)
Lemma brush_children_spec (n : Node) :
  map Brush (brush_children n) = List.filter is_brush (children n).
Proof.
  unfold brush_children. induction (children n) as [|c cs IH]; [done|].
  destruct c; cbn; rewrite ?IH; done.
Qed.

(** C9: [entity] begins the entity, hands over the properties and then the
    parent properties in their order, calls [brush] for the direct children
    of [brushParent] that are brushes and for no other child, and ends the
    entity. *)
Theorem entity_emits node props parentProps brushParent st :
  output (exec (entity node props parentProps brushParent) st)
  = output st
    ++ [doBeginEntity node]
    ++ map doEntityProperty props
    ++ map doEntityProperty parentProps
    ++ map (λ b, doBrush (Some b)) (brush_children brushParent)
    ++ [doEndEntity node]
  ∧ map Brush (brush_children brushParent) = List.filter is_brush (children brushParent).
Proof.
  split; [|apply brush_children_spec].
  unfold exec. rewrite run_entity. cbn [snd output].
  by rewrite map_app, <- !app_assoc.
Qed.

(** *** customLayer *)

Lemma run_layerProperties (l : LayerNode) st :
  layerProperties l st
  = (layer_record l (result (layerIds_getId (layer_addr l)) st),
     exec (layerIds_getId (layer_addr l)) st).
Proof.
  unfold layerProperties, layer_record, hasSortIndex, sortIndex, result, exec.
  unfold mbind, M_bind. cbn [addr_of].
  destruct (layerIds_getId (layer_addr l) st) as [id st'].
  unfold mret, M_ret. cbn [fst snd]. f_equal.
  destruct (sortIndex_opt (layer l)), (decide (layer_lockState l = Lock_Locked)),
    (layer_hidden l), (omitFromExport (layer l)); reflexivity.
Qed.

Lemma run_groupProperties (g : GroupNode) st :
  groupProperties g st
  = ([ mkEntityProperty PropertyKeys.Classname PropertyValues.GroupClassname;
       mkEntityProperty PropertyKeys.GroupType PropertyValues.GroupTypeGroup;
       mkEntityProperty PropertyKeys.GroupName (group_name g);
       mkEntityProperty PropertyKeys.GroupId (result (groupIds_getId (group_addr g)) st) ],
     exec (groupIds_getId (group_addr g)) st).
Proof.
  unfold groupProperties, result, exec, mbind, M_bind. cbn [addr_of].
  by destruct (groupIds_getId (group_addr g) st) as [id st'].
Qed.

Lemma output_getId_layer t st : output (exec (layerIds_getId t) st) = output st.
Proof. unfold exec. by rewrite run_layerIds_getId. Qed.

Lemma output_getId_group t st : output (exec (groupIds_getId t) st) = output st.
Proof. unfold exec. by rewrite run_groupIds_getId. Qed.

(** C6: when exporting a layer that is marked omit-from-export, [customLayer]
    calls no hook and changes nothing; otherwise it emits one entity whose
    properties are [layer_record], in that order, with the id of the layer
    manager, and whose brushes are the direct brush children of the layer. *)
Theorem customLayer_emits (l : LayerNode) st :
  (m_exporting (this st) = true → omitFromExport (layer l) = true →
     customLayer l st = (tt, st))
  ∧ (m_exporting (this st) && omitFromExport (layer l) = false →
     output (exec (customLayer l) st)
     = output st
       ++ [doBeginEntity (Some (LayerN l))]
       ++ map doEntityProperty
            (layer_record l (result (layerIds_getId (layer_addr l)) st))
       ++ map (λ b, doBrush (Some b)) (brush_children (LayerN l))
       ++ [doEndEntity (Some (LayerN l))]).
Proof.
  split.
  - intros He Ho. unfold customLayer, mbind, M_bind, get_this.
    by rewrite He, Ho.
  - intros Hc. unfold exec, customLayer, mbind, M_bind, get_this.
    rewrite Hc. cbn [negb]. rewrite run_layerProperties, run_entity.
    cbn [snd output]. rewrite output_getId_layer, app_nil_r. reflexivity.
Qed.

(** *** defaultLayer *)

Lemma defaultLayer_worldEntity_overlay (w : WorldNode) :
  properties (defaultLayer_worldEntity w)
  = let l := world_defaultLayer w in
    overlay (omitFromExport (layer l)) PropertyKeys.LayerOmitFromExport
      PropertyValues.LayerOmitFromExportValue
      (overlay (layer_hidden l) PropertyKeys.LayerHidden PropertyValues.LayerHiddenValue
         (overlay (bool_decide (layer_lockState l = Lock_Locked)) PropertyKeys.LayerLocked
            PropertyValues.LayerLockedValue
            (overlay (bool_decide (is_Some (color (layer l)))) PropertyKeys.LayerColor
               (from_option Color_to_string "" (color (layer l)))
               (properties (world_entity w))))).
Proof.
  unfold defaultLayer_worldEntity. cbn zeta.
  destruct (color (layer (world_defaultLayer w))) as [c|],
    (decide (layer_lockState (world_defaultLayer w) = Lock_Locked)) as [Hl|Hl],
    (layer_hidden (world_defaultLayer w)),
    (omitFromExport (layer (world_defaultLayer w)));
    rewrite ?(bool_decide_eq_true_2 _ Hl), ?(bool_decide_eq_false_2 _ Hl);
    reflexivity.
Qed.

Lemma addOrUpdate_keys k v ps k' :
  k' ∈ key <$> (addOrUpdate k v ps) ↔ k' = k ∨ k' ∈ key <$> ps.
Proof.
  induction ps as [|p ps IH]; simpl.
  - set_solver.
  - destruct (decide (key p = k)) as [<-|Hne]; simpl; rewrite !elem_of_cons.
    + tauto.
    + rewrite IH. tauto.
Qed.

Lemma remove_keys k (ps : list EntityProperty) k' :
  k' ∈ key <$> (filter (λ p, key p ≠ k) ps) ↔ k' ≠ k ∧ k' ∈ key <$> ps.
Proof.
  rewrite !list_elem_of_fmap. split.
  - intros (p & -> & [Hp ?]%list_elem_of_filter). eauto.
  - intros (Hne & p & -> & Hp). exists p. split; [done|].
    by apply list_elem_of_filter.
Qed.

Lemma overlay_keys cond k v ps k' :
  k' ∈ key <$> (overlay cond k v ps)
  ↔ (k' = k ∧ cond = true) ∨ (k' ≠ k ∧ k' ∈ key <$> ps).
Proof.
  unfold overlay. destruct cond.
  - rewrite addOrUpdate_keys. destruct (decide (k' = k)); intuition congruence.
  - rewrite remove_keys. intuition congruence.
Qed.

Lemma overlay_keys_same cond k v ps : k ∈ key <$> (overlay cond k v ps) ↔ cond = true.
Proof. rewrite overlay_keys. intuition congruence. Qed.

Lemma overlay_keys_other cond k v ps k' :
  k' ≠ k → k' ∈ key <$> (overlay cond k v ps) ↔ k' ∈ key <$> ps.
Proof. intros Hne. rewrite overlay_keys. intuition congruence. Qed.

Lemma addOrUpdate_NoDup k v ps :
  NoDup (key <$> ps) → NoDup (key <$> (addOrUpdate k v ps)).
Proof.
  induction ps as [|p ps IH]; simpl; intros Hnd.
  - apply NoDup_singleton.
  - destruct (decide (key p = k)) as [<-|Hne]; [done|]. simpl.
    apply NoDup_cons in Hnd as [Hp Hnd]. apply NoDup_cons. split; [|auto].
    rewrite addOrUpdate_keys. intuition congruence.
Qed.

Lemma remove_NoDup k (ps : list EntityProperty) :
  NoDup (key <$> ps) → NoDup (key <$> (filter (λ p, key p ≠ k) ps)).
Proof.
  induction ps as [|p ps IH]; simpl; intros Hnd; [done|].
  apply NoDup_cons in Hnd as [Hp Hnd]. rewrite filter_cons.
  destruct (decide (key p ≠ k)); [|auto]. simpl. apply NoDup_cons. split; [|auto].
  rewrite remove_keys. intuition congruence.
Qed.

Lemma overlay_NoDup cond k v ps :
  NoDup (key <$> ps) → NoDup (key <$> (overlay cond k v ps)).
Proof. destruct cond; [apply addOrUpdate_NoDup|apply remove_NoDup]. Qed.

(** What the overlay leaves alone: the pairs under every other key. *)
Lemma addOrUpdate_others (f : string → bool) k v ps :
  f k = false →
  List.filter (λ p, f (key p)) (addOrUpdate k v ps) = List.filter (λ p, f (key p)) ps.
Proof.
  intros Hk. induction ps as [|p ps IH]; simpl.
  - by rewrite Hk.
  - destruct (decide (key p = k)) as [Hp|Hne]; simpl.
    + by rewrite Hp, Hk.
    + by rewrite IH.
Qed.

Lemma remove_others (f : string → bool) k (ps : list EntityProperty) :
  f k = false →
  List.filter (λ p, f (key p)) (filter (λ p, key p ≠ k) ps)
  = List.filter (λ p, f (key p)) ps.
Proof.
  intros Hk. induction ps as [|p ps IH]; [done|].
  rewrite filter_cons. destruct (decide (key p ≠ k)) as [Hne|Heq]; simpl.
  - by rewrite IH.
  - apply dec_stable in Heq. by rewrite IH, Heq, Hk.
Qed.

Lemma overlay_others (f : string → bool) cond k v ps :
  f k = false →
  List.filter (λ p, f (key p)) (overlay cond k v ps) = List.filter (λ p, f (key p)) ps.
Proof. destruct cond; [by apply addOrUpdate_others|by apply remove_others]. Qed.

Lemma addOrUpdate_In k v ps :
  ∃ p, p ∈ addOrUpdate k v ps ∧ key p = k ∧ value p = v.
Proof.
  induction ps as [|q ps IH]; simpl.
  - eexists. split; [apply list_elem_of_here|done].
  - destruct (decide (key q = k)).
    + eexists. split; [apply list_elem_of_here|done].
    + destruct IH as (p & ? & ?). exists p. split; [by apply list_elem_of_further|done].
Qed.

(** The pair that an overlay step sets, and the pairs under other keys. *)
Lemma addOrUpdate_elem k v ps : mkEntityProperty k v ∈ addOrUpdate k v ps.
Proof.
  induction ps as [|q ps IH]; simpl.
  - apply list_elem_of_here.
  - destruct (decide (key q = k)); [apply list_elem_of_here|].
    by apply list_elem_of_further.
Qed.

Lemma overlay_elem_other cond k v ps p :
  key p ≠ k → p ∈ overlay cond k v ps ↔ p ∈ ps.
Proof.
  intros Hne. unfold overlay. destruct cond.
  - induction ps as [|q ps IH]; simpl.
    + rewrite list_elem_of_singleton. split; [|by intros ?%elem_of_nil].
      intros ->. by destruct Hne.
    + destruct (decide (key q = k)) as [Hq|Hq]; rewrite !elem_of_cons.
      * split; (intros [->|?]; [|by right]); exfalso; by apply Hne.
      * by rewrite IH.
  - rewrite list_elem_of_filter. tauto.
Qed.

(** An overlay step never adds a second pair under a key. *)
Lemma occurrences_cons k p ps :
  occurrences k (p :: ps)
  = ((if bool_decide (key p = k) then 1 else 0) + occurrences k ps)%nat.
Proof. unfold occurrences. simpl. by destruct (bool_decide (key p = k)). Qed.

Lemma occurrences_addOrUpdate_same k v ps :
  occurrences k (addOrUpdate k v ps) = Nat.max 1 (occurrences k ps).
Proof.
  induction ps as [|q ps IH]; simpl.
  - rewrite occurrences_cons. cbn [key]. by rewrite bool_decide_eq_true_2.
  - destruct (decide (key q = k)) as [Hq|Hq]; rewrite !occurrences_cons; cbn [key].
    + rewrite !bool_decide_eq_true_2 by done. lia.
    + rewrite bool_decide_eq_false_2 by done. by rewrite IH.
Qed.

Lemma occurrences_addOrUpdate_other k v ps k' :
  k' ≠ k → occurrences k' (addOrUpdate k v ps) = occurrences k' ps.
Proof.
  intros Hne. induction ps as [|q ps IH]; simpl.
  - rewrite occurrences_cons. cbn [key]. by rewrite bool_decide_eq_false_2.
  - destruct (decide (key q = k)) as [Hq|Hq]; rewrite !occurrences_cons; cbn [key].
    + rewrite !bool_decide_eq_false_2 by congruence. done.
    + by rewrite IH.
Qed.

Lemma occurrences_remove k (ps : list EntityProperty) k' :
  (occurrences k' (filter (λ p, key p ≠ k) ps) ≤ occurrences k' ps)%nat.
Proof.
  induction ps as [|q ps IH]; [done|].
  rewrite filter_cons. destruct (decide (key q ≠ k)); rewrite !occurrences_cons;
    destruct (bool_decide (key q = k')); lia.
Qed.

Lemma occurrences_overlay cond k v ps k' :
  (occurrences k' (overlay cond k v ps) ≤ Nat.max 1 (occurrences k' ps))%nat.
Proof.
  unfold overlay. destruct cond.
  - destruct (decide (k' = k)) as [->|Hne].
    + by rewrite occurrences_addOrUpdate_same.
    + rewrite occurrences_addOrUpdate_other by done. lia.
  - pose proof (occurrences_remove k ps k'). lia.
Qed.

(** What [defaultLayer] does to the state, in either mode. *)
Lemma run_defaultLayer (w : WorldNode) st :
  defaultLayer w st
  = if m_exporting (this st) && omitFromExport (layer (world_defaultLayer w))
    then (beginEntity_with (Some (World w)) (properties (defaultLayer_worldEntity w)) [] ;;
          endEntity (Some (World w))) st
    else entity (Some (World w)) (properties (defaultLayer_worldEntity w)) []
           (LayerN (world_defaultLayer w)) st.
Proof.
  unfold defaultLayer. cbn zeta. unfold mbind at 1. unfold M_bind, get_this.
  by destruct (m_exporting (this st) && _).
Qed.

Lemma events_of_app {A} (m : M A) st evs :
  output (exec m st) = output st ++ evs → events_of m st = evs.
Proof. unfold events_of. intros ->. by rewrite drop_app_length. Qed.

Lemma emitted_properties_app evs1 evs2 :
  emitted_properties (evs1 ++ evs2) = emitted_properties evs1 ++ emitted_properties evs2.
Proof. apply omap_app. Qed.

Lemma emitted_properties_props ps : emitted_properties (map doEntityProperty ps) = ps.
Proof. induction ps as [|p ps IH]; [done|]. cbn. f_equal. exact IH. Qed.

Lemma emitted_properties_brushes bs : emitted_properties (map doBrush bs) = [].
Proof. induction bs as [|b bs IH]; [done|]. cbn. exact IH. Qed.

Lemma emitted_brushes_app evs1 evs2 :
  emitted_brushes (evs1 ++ evs2) = emitted_brushes evs1 ++ emitted_brushes evs2.
Proof. apply omap_app. Qed.

Lemma emitted_brushes_props ps : emitted_brushes (map doEntityProperty ps) = [].
Proof. induction ps as [|p ps IH]; [done|]. cbn. exact IH. Qed.

Lemma emitted_brushes_brushes bs : emitted_brushes (map doBrush bs) = bs.
Proof. induction bs as [|b bs IH]; [done|]. cbn. f_equal. exact IH. Qed.

Lemma output_defaultLayer (w : WorldNode) st :
  output (exec (defaultLayer w) st)
  = output st
    ++ [doBeginEntity (Some (World w))]
    ++ map doEntityProperty (properties (defaultLayer_worldEntity w))
    ++ (if m_exporting (this st) && omitFromExport (layer (world_defaultLayer w))
        then []
        else map doBrush (map Some (brush_children (LayerN (world_defaultLayer w)))))
    ++ [doEndEntity (Some (World w))].
Proof.
  unfold exec. rewrite run_defaultLayer.
  destruct (m_exporting (this st) && _).
  - rewrite run_entity_shell. reflexivity.
  - rewrite run_entity. cbn [snd output]. by rewrite app_nil_r, map_map.
Qed.

(** The merged list is the overlay of the specification onto the properties
    of the world. *)
Lemma merged_is_overlay (w : WorldNode) :
  properties (defaultLayer_worldEntity w) = merged_by_overlay w.
Proof. apply defaultLayer_worldEntity_overlay. Qed.

Lemma merged_own_pairs (w : WorldNode) :
  List.filter (λ p, own_key (key p)) (properties (defaultLayer_worldEntity w))
  = List.filter (λ p, own_key (key p)) (properties (world_entity w)).
Proof.
  rewrite defaultLayer_worldEntity_overlay. cbn zeta.
  by rewrite !(overlay_others own_key).
Qed.

Lemma merged_has_LayerColor (w : WorldNode) :
  PropertyKeys.LayerColor ∈ key <$> properties (defaultLayer_worldEntity w)
  ↔ is_Some (color (layer (world_defaultLayer w))).
Proof.
  rewrite defaultLayer_worldEntity_overlay. cbn zeta.
  rewrite !overlay_keys_other by discriminate.
  by rewrite overlay_keys_same, bool_decide_eq_true.
Qed.

Lemma merged_has_LayerLocked (w : WorldNode) :
  PropertyKeys.LayerLocked ∈ key <$> properties (defaultLayer_worldEntity w)
  ↔ layer_lockState (world_defaultLayer w) = Lock_Locked.
Proof.
  rewrite defaultLayer_worldEntity_overlay. cbn zeta.
  rewrite !overlay_keys_other by discriminate.
  by rewrite overlay_keys_same, bool_decide_eq_true.
Qed.

Lemma merged_has_LayerHidden (w : WorldNode) :
  PropertyKeys.LayerHidden ∈ key <$> properties (defaultLayer_worldEntity w)
  ↔ layer_hidden (world_defaultLayer w) = true.
Proof.
  rewrite defaultLayer_worldEntity_overlay. cbn zeta.
  rewrite !overlay_keys_other by discriminate.
  by rewrite overlay_keys_same.
Qed.

Lemma merged_has_LayerOmitFromExport (w : WorldNode) :
  PropertyKeys.LayerOmitFromExport ∈ key <$> properties (defaultLayer_worldEntity w)
  ↔ omitFromExport (layer (world_defaultLayer w)) = true.
Proof.
  rewrite defaultLayer_worldEntity_overlay. cbn zeta.
  by rewrite overlay_keys_same.
Qed.

(** The pairs under the derived keys carry the values of the default layer. *)
Lemma merged_values (w : WorldNode) :
  let l := world_defaultLayer w in
  let merged := properties (defaultLayer_worldEntity w) in
  (∀ c, color (layer l) = Some c →
     mkEntityProperty PropertyKeys.LayerColor (Color_to_string c) ∈ merged)
  ∧ (layer_lockState l = Lock_Locked →
     mkEntityProperty PropertyKeys.LayerLocked PropertyValues.LayerLockedValue ∈ merged)
  ∧ (layer_hidden l = true →
     mkEntityProperty PropertyKeys.LayerHidden PropertyValues.LayerHiddenValue ∈ merged)
  ∧ (omitFromExport (layer l) = true →
     mkEntityProperty PropertyKeys.LayerOmitFromExport
       PropertyValues.LayerOmitFromExportValue ∈ merged).
Proof.
  cbn zeta. rewrite defaultLayer_worldEntity_overlay. cbn zeta.
  split; [|split; [|split]].
  - intros c Hc. rewrite !overlay_elem_other by discriminate.
    rewrite Hc. cbn. apply addOrUpdate_elem.
  - intros Hl. rewrite !overlay_elem_other by discriminate.
    rewrite (bool_decide_eq_true_2 _ Hl). apply addOrUpdate_elem.
  - intros Hh. rewrite !overlay_elem_other by discriminate.
    rewrite Hh. apply addOrUpdate_elem.
  - intros Ho. rewrite Ho. apply addOrUpdate_elem.
Qed.

Lemma merged_occurrences (w : WorldNode) k :
  (occurrences k (properties (defaultLayer_worldEntity w))
   ≤ Nat.max 1 (occurrences k (properties (world_entity w))))%nat.
Proof.
  rewrite defaultLayer_worldEntity_overlay. cbn zeta.
  do 3 (eapply Nat.le_trans; [apply occurrences_overlay|];
        apply Nat.max_lub; [apply Nat.le_max_l|]).
  apply occurrences_overlay.
Qed.

(** C2, as the code has it: when exporting with the default layer marked
    omit-from-export, [defaultLayer] emits the world entity without any
    brush, with the merged properties and not with the properties of the
    world alone.  Otherwise, so whenever the serializer is not exporting, the
    merged properties are emitted and [brush] is called for every direct
    brush child of the default layer.  The merged properties are the pairs
    of the world under other keys than the four derived ones, kept as they
    are and in their order, and each of the four derived keys exactly when
    its condition holds, with the value the default layer gives; in the
    first case the omit-from-export key is therefore among them. *)
Theorem defaultLayer_emits (w : WorldNode) st :
  let node := Some (World w) in
  let l := world_defaultLayer w in
  let merged := properties (defaultLayer_worldEntity w) in
  (m_exporting (this st) = true → omitFromExport (layer l) = true →
     events_of (defaultLayer w) st
     = [doBeginEntity node] ++ map doEntityProperty merged ++ [doEndEntity node]
     ∧ emitted_brushes (events_of (defaultLayer w) st) = []
     ∧ ∃ p, p ∈ merged ∧ key p = PropertyKeys.LayerOmitFromExport
            ∧ value p = PropertyValues.LayerOmitFromExportValue)
  ∧ (m_exporting (this st) && omitFromExport (layer l) = false →
     events_of (defaultLayer w) st
     = [doBeginEntity node] ++ map doEntityProperty merged
       ++ map (λ b, doBrush (Some b)) (brush_children (LayerN l))
       ++ [doEndEntity node])
  ∧ List.filter (λ p, own_key (key p)) merged
    = List.filter (λ p, own_key (key p)) (properties (world_entity w))
  ∧ (PropertyKeys.LayerColor ∈ key <$> merged ↔ is_Some (color (layer l)))
  ∧ (PropertyKeys.LayerLocked ∈ key <$> merged ↔ layer_lockState l = Lock_Locked)
  ∧ (PropertyKeys.LayerHidden ∈ key <$> merged ↔ layer_hidden l = true)
  ∧ (PropertyKeys.LayerOmitFromExport ∈ key <$> merged ↔ omitFromExport (layer l) = true)
  ∧ (∀ c, color (layer l) = Some c →
       mkEntityProperty PropertyKeys.LayerColor (Color_to_string c) ∈ merged)
  ∧ (layer_lockState l = Lock_Locked →
       mkEntityProperty PropertyKeys.LayerLocked PropertyValues.LayerLockedValue ∈ merged)
  ∧ (layer_hidden l = true →
       mkEntityProperty PropertyKeys.LayerHidden PropertyValues.LayerHiddenValue ∈ merged)
  ∧ (omitFromExport (layer l) = true →
       mkEntityProperty PropertyKeys.LayerOmitFromExport
         PropertyValues.LayerOmitFromExportValue ∈ merged).
Proof.
  cbn zeta. split; [|split; [|split; [|split; [|split; [|split; [|split]]]]]].
  - intros He Ho.
    assert (events_of (defaultLayer w) st
            = [doBeginEntity (Some (World w))]
              ++ map doEntityProperty (properties (defaultLayer_worldEntity w))
              ++ [doEndEntity (Some (World w))]) as Hev.
    { apply events_of_app. rewrite output_defaultLayer, He, Ho. reflexivity. }
    split; [exact Hev|]. split.
    + rewrite Hev. rewrite !emitted_brushes_app, emitted_brushes_props. reflexivity.
    + rewrite defaultLayer_worldEntity_overlay. cbn zeta. rewrite Ho.
      apply addOrUpdate_In.
  - intros He. apply events_of_app. rewrite output_defaultLayer, He.
    by rewrite map_map.
  - apply merged_own_pairs.
  - apply merged_has_LayerColor.
  - apply merged_has_LayerLocked.
  - apply merged_has_LayerHidden.
  - apply merged_has_LayerOmitFromExport.
  - apply merged_values.
Qed.

(** C5: the merged property list is what [defaultLayer] emits, and it is the
    overlay of the four derived keys onto the properties of the world: the
    pairs of the world under other keys are kept as they are and in their
    order; each of the four derived keys is among the keys exactly when its
    condition holds, then with the value the default layer gives, so none of
    them is when the default layer has no color, is unlocked, shown and not
    omitted, whatever the properties of the world are.  The overlay never
    adds a second pair under a key, so the merged list has no duplicate keys
    when the properties of the world have none. *)
Theorem defaultLayer_overlay (w : WorldNode) st :
  let l := world_defaultLayer w in
  let merged := properties (defaultLayer_worldEntity w) in
  emitted_properties (events_of (defaultLayer w) st) = merged
  ∧ merged = merged_by_overlay w
  ∧ List.filter (λ p, own_key (key p)) merged
    = List.filter (λ p, own_key (key p)) (properties (world_entity w))
  ∧ (PropertyKeys.LayerColor ∈ key <$> merged ↔ is_Some (color (layer l)))
  ∧ (PropertyKeys.LayerLocked ∈ key <$> merged ↔ layer_lockState l = Lock_Locked)
  ∧ (PropertyKeys.LayerHidden ∈ key <$> merged ↔ layer_hidden l = true)
  ∧ (PropertyKeys.LayerOmitFromExport ∈ key <$> merged ↔ omitFromExport (layer l) = true)
  ∧ ((∀ c, color (layer l) = Some c →
        mkEntityProperty PropertyKeys.LayerColor (Color_to_string c) ∈ merged)
     ∧ (layer_lockState l = Lock_Locked →
        mkEntityProperty PropertyKeys.LayerLocked PropertyValues.LayerLockedValue
          ∈ merged)
     ∧ (layer_hidden l = true →
        mkEntityProperty PropertyKeys.LayerHidden PropertyValues.LayerHiddenValue
          ∈ merged)
     ∧ (omitFromExport (layer l) = true →
        mkEntityProperty PropertyKeys.LayerOmitFromExport
          PropertyValues.LayerOmitFromExportValue ∈ merged))
  ∧ (color (layer l) = None → layer_lockState l = Lock_Unlocked →
     layer_hidden l = false → omitFromExport (layer l) = false →
     ∀ k, k ∈ derived_keys → k ∉ key <$> merged)
  ∧ (NoDup (key <$> properties (world_entity w)) → NoDup (key <$> merged))
  ∧ (∀ k, (occurrences k merged
           ≤ Nat.max 1 (occurrences k (properties (world_entity w))))%nat).
Proof.
  cbn zeta.
  pose proof (merged_has_LayerColor w) as Hcolor.
  pose proof (merged_has_LayerLocked w) as Hlocked.
  pose proof (merged_has_LayerHidden w) as Hhidden.
  pose proof (merged_has_LayerOmitFromExport w) as Homit.
  split; [|split; [|split; [|split; [|split; [|split; [|split;
    [|split; [|split; [|split]]]]]]]]]; try done.
  - erewrite events_of_app; [|apply output_defaultLayer].
    rewrite !emitted_properties_app, emitted_properties_props.
    destruct (m_exporting (this st) && _);
      rewrite ?emitted_properties_brushes; cbn; by rewrite app_nil_r.
  - apply merged_is_overlay.
  - apply merged_own_pairs.
  - apply merged_values.
  - intros Hc Hl Hh Ho k Hk. unfold derived_keys in Hk.
    rewrite !elem_of_cons, elem_of_nil in Hk.
    destruct Hk as [->|[->|[->|[->|[]]]]].
    + rewrite Hcolor, Hc. by intros [??].
    + rewrite Hlocked, Hl. done.
    + rewrite Hhidden, Hh. done.
    + rewrite Homit, Ho. done.
  - intros Hnd. rewrite defaultLayer_worldEntity_overlay. cbn zeta.
    by do 4 apply overlay_NoDup.
  - intros k. apply merged_occurrences.
Qed.

(** *** The object numbers *)

Lemma tracks_silent {A} (m : M A) :
  (∀ st, output (exec m st) = output st ∧ counters (exec m st) = counters st) →
  tracks m.
Proof.
  intros Hm st. exists []. destruct (Hm st) as [-> ->]. by rewrite app_nil_r.
Qed.

Lemma tracks_ret {A} (a : A) : tracks (mret a).
Proof. by apply tracks_silent. Qed.

Lemma tracks_bind {A B} (m : M A) (f : A → M B) :
  tracks m → (∀ a, tracks (f a)) → tracks (m ≫= f).
Proof.
  intros Hm Hf st. destruct (Hm st) as (evs1 & Ho1 & Hc1).
  destruct (Hf (result m st) (exec m st)) as (evs2 & Ho2 & Hc2).
  exists (evs1 ++ evs2). rewrite exec_bind, Ho2, Ho1, Hc2, Hc1.
  unfold count_events. by rewrite foldl_app, app_assoc.
Qed.

Lemma tracks_for_each {A} (l : list A) (body : A → M unit) :
  (∀ x, tracks (body x)) → tracks (for_each l body).
Proof.
  intros Hb. induction l as [|x l IH]; simpl.
  - apply tracks_ret.
  - apply tracks_bind; [apply Hb|intros _; apply IH].
Qed.

Lemma tracks_get_this : tracks get_this.
Proof. by apply tracks_silent. Qed.

Lemma tracks_layerIds_getId t : tracks (layerIds_getId t).
Proof. apply tracks_silent. intros st. unfold exec. by rewrite run_layerIds_getId. Qed.

Lemma tracks_groupIds_getId t : tracks (groupIds_getId t).
Proof. apply tracks_silent. intros st. unfold exec. by rewrite run_groupIds_getId. Qed.

Lemma tracks_setExporting b : tracks (setExporting b).
Proof. by apply tracks_silent. Qed.

Lemma tracks_beginFile rootNodes : tracks (beginFile rootNodes).
Proof. intros st. by exists [doBeginFile rootNodes]. Qed.

Lemma tracks_endFile : tracks endFile.
Proof. intros st. by exists [doEndFile]. Qed.

Lemma tracks_beginEntity node : tracks (beginEntity node).
Proof. intros st. by exists [doBeginEntity node]. Qed.

Lemma tracks_endEntity node : tracks (endEntity node).
Proof. intros st. by exists [doEndEntity node]. Qed.

Lemma tracks_entityProperty p : tracks (entityProperty p).
Proof. intros st. by exists [doEntityProperty p]. Qed.

Lemma tracks_brush b : tracks (brush b).
Proof. intros st. by exists [doBrush b]. Qed.

Lemma tracks_brushFace f : tracks (brushFace f).
Proof. intros st. by exists [doBrushFace f]. Qed.

Create HintDb tracks.

#[local] Hint Resolve tracks_ret tracks_get_this tracks_layerIds_getId
  tracks_groupIds_getId tracks_setExporting tracks_beginFile tracks_endFile
  tracks_beginEntity tracks_endEntity tracks_entityProperty tracks_brush
  tracks_brushFace : tracks.

(** Goes down a computation along its binds, loops and branches. *)
Ltac tracks_step :=
  first
    [ solve [auto with tracks]
    | apply tracks_for_each; intros ?
    | apply tracks_bind; [|intros ?]
    | match goal with
      | |- tracks (if ?b then _ else _) => destruct b
      | |- tracks (match ?x with _ => _ end) => destruct x
      end ].

Lemma tracks_entityProperties props : tracks (entityProperties props).
Proof. unfold entityProperties. repeat tracks_step. Qed.

#[local] Hint Resolve tracks_entityProperties : tracks.

Lemma tracks_beginEntity_with node props extra :
  tracks (beginEntity_with node props extra).
Proof. unfold beginEntity_with. repeat tracks_step. Qed.

Lemma tracks_brushes bs : tracks (brushes bs).
Proof. unfold brushes. repeat tracks_step. Qed.

Lemma tracks_brushFaces fs : tracks (brushFaces fs).
Proof. unfold brushFaces. repeat tracks_step. Qed.

#[local] Hint Resolve tracks_beginEntity_with tracks_brushes tracks_brushFaces : tracks.

Lemma tracks_entity node props parentProps brushParent :
  tracks (entity node props parentProps brushParent).
Proof. unfold entity, visitChildren, accept. repeat tracks_step. Qed.

Lemma tracks_entity_brushes node props parentProps bs :
  tracks (entity_brushes node props parentProps bs).
Proof. unfold entity_brushes. repeat tracks_step. Qed.

Lemma tracks_layerProperties l : tracks (layerProperties l).
Proof. unfold layerProperties. repeat tracks_step. Qed.

Lemma tracks_groupProperties g : tracks (groupProperties g).
Proof. unfold groupProperties. repeat tracks_step. Qed.

Lemma tracks_parentProperties node : tracks (parentProperties node).
Proof. unfold parentProperties, accept. repeat tracks_step. Qed.

#[local] Hint Resolve tracks_entity tracks_entity_brushes tracks_layerProperties
  tracks_groupProperties tracks_parentProperties : tracks.

Lemma tracks_run (c : Call) : tracks (run c).
Proof.
  destruct c; cbn [run]; unfold discard, entityNo, brushNo, exporting,
    defaultLayer, customLayer, group; repeat tracks_step.
Qed.

Lemma tracks_run_all (cs : list Call) : tracks (run_all cs).
Proof. apply tracks_for_each, tracks_run. Qed.

Lemma count_events_idle c evs :
  forallb (λ e, negb (counts e)) evs = true → count_events c evs = c.
Proof.
  revert c. induction evs as [|e evs IH]; intros c; [done|]. cbn.
  intros [He Hevs]%andb_true_iff. destruct e; try discriminate; by apply IH.
Qed.

Lemma incr_below bits (n : N) : (n + 1 < 2 ^ Npos bits)%N → incr bits n = (n + 1)%N.
Proof. intros Hn. unfold incr, wrap. by apply N.mod_small. Qed.

Lemma counters_layerIds_getId t st :
  counters (exec (layerIds_getId t) st) = counters st.
Proof. unfold exec. by rewrite run_layerIds_getId. Qed.

Lemma counters_groupIds_getId t st :
  counters (exec (groupIds_getId t) st) = counters st.
Proof. unfold exec. by rewrite run_groupIds_getId. Qed.

(** The calls that are not made of the four leave the object numbers. *)
Lemma counters_kept (c : Call) st :
  counting c = false → counters (exec (run c) st) = counters st.
Proof.
  destruct c; try discriminate; intros _; cbn [run]; try done.
  - unfold exec. by rewrite run_entityProperties.
  - unfold exec. by rewrite run_brushFaces.
  - rewrite exec_discard. destruct node as [[w|l|g|e|b]|]; try done.
    + unfold parentProperties, accept. rewrite exec_bind.
      apply counters_layerIds_getId.
    + unfold parentProperties, accept. rewrite exec_bind.
      apply counters_groupIds_getId.
  - rewrite exec_discard. unfold exec at 1. rewrite run_layerProperties.
    apply counters_layerIds_getId.
  - rewrite exec_discard. unfold exec at 1. rewrite run_groupProperties.
    apply counters_groupIds_getId.
Qed.

(** C4: [beginFile] sets both object numbers to 0; [endEntity] adds one to
    the entity number and [brush] adds one to the brush number, in the
    arithmetic of [ObjectNo], which is plain addition below the greatest
    value; [beginEntity] sets the brush number to 0; and the numbers change
    by these four calls only: a call that is not made of them leaves both
    numbers as they are, and after every sequence of calls the numbers are
    those that [count_events] reads off the hook calls of the four. *)
Theorem object_numbers_follow_calls :
  (∀ rootNodes st, counters (exec (beginFile rootNodes) st) = (0%N, 0%N))
  ∧ (∀ node st, counters (exec (endEntity node) st)
                = (incr ObjectNo_bits (counters st).1, (counters st).2))
  ∧ (∀ node st, counters (exec (beginEntity node) st) = ((counters st).1, 0%N))
  ∧ (∀ b st, counters (exec (brush b) st)
             = ((counters st).1, incr ObjectNo_bits (counters st).2))
  ∧ (∀ n : N, (n + 1 < 2 ^ Npos ObjectNo_bits)%N → incr ObjectNo_bits n = (n + 1)%N)
  ∧ (∀ c st, counting c = false → counters (exec (run c) st) = counters st)
  ∧ (∀ cs st, counters (exec (run_all cs) st)
              = count_events (counters st) (events_of (run_all cs) st))
  ∧ (∀ c st, forallb (λ e, negb (counts e)) (events_of (run c) st) = true →
             counters (exec (run c) st) = counters st).
Proof.
  repeat split; try done.
  - apply incr_below.
  - apply counters_kept.
  - intros cs st. destruct (tracks_run_all cs st) as (evs & Ho & Hc).
    by rewrite (events_of_app _ _ _ Ho).
  - intros c st Hidle. destruct (tracks_run c st) as (evs & Ho & Hc).
    rewrite (events_of_app _ _ _ Ho) in Hidle. by rewrite Hc, count_events_idle.
Qed.

(** *** The ids *)

Lemma getId_hit self t c s :
  m_ids self !! t = Some s → getId self t c = (s, self, c).
Proof. unfold getId. by intros ->. Qed.

Lemma getId_miss self t c :
  m_ids self !! t = None →
  getId self t c
  = (idToString c, mkIdManager (<[t := idToString c]> (m_ids self)), incr IdType_bits c).
Proof. unfold getId. by intros ->. Qed.

(** After the call the node has the id the call returned. *)
Lemma getId_cached self t c :
  m_ids (getId self t c).1.2 !! t = Some (getId self t c).1.1.
Proof.
  destruct (m_ids self !! t) as [s|] eqn:Ht.
  - by rewrite (getId_hit _ _ _ _ Ht).
  - rewrite (getId_miss _ _ _ Ht). cbn. apply lookup_insert_eq.
Qed.

(** No call takes an id away or changes it. *)
Lemma getId_keeps self t c t' s :
  m_ids self !! t' = Some s → m_ids (getId self t c).1.2 !! t' = Some s.
Proof.
  intros Ht'. destruct (m_ids self !! t) as [s0|] eqn:Ht.
  - by rewrite (getId_hit _ _ _ _ Ht).
  - rewrite (getId_miss _ _ _ Ht). cbn.
    rewrite lookup_insert_ne; [done|]. intros ->. congruence.
Qed.

Lemma idToString_inj k1 k2 : idToString k1 = idToString k2 → k1 = k2.
Proof. apply pretty_N_inj. Qed.

Lemma incr_neq (c : N) : (c < 2 ^ Npos IdType_bits)%N → incr IdType_bits c ≠ c.
Proof.
  intros Hc. unfold incr, wrap.
  assert (2 ≤ 2 ^ Npos IdType_bits)%N as H2.
  { change 2%N with (2 ^ 1)%N at 1. apply N.pow_le_mono_r; lia. }
  destruct (decide (c + 1 < 2 ^ Npos IdType_bits)%N) as [Hlt|Hge].
  - rewrite N.mod_small by done. lia.
  - assert (c + 1 = 2 ^ Npos IdType_bits)%N as -> by lia.
    rewrite N.Div0.mod_same. lia.
Qed.

Lemma ids_below_mono c c' ids : (c ≤ c')%N → ids_below c ids → ids_below c' ids.
Proof.
  intros Hle Hb t s Ht. destruct (Hb t s Ht) as (k & Hk & ->).
  exists k. split; [lia|done].
Qed.

(** Two different nodes get different ids from a manager that is in order,
    whether the ids are cached or drawn by these calls. *)
Lemma getId_distinct self c t1 t2 :
  IdManager_ok c self → t1 ≠ t2 →
  (getId self t1 c).1.1 ≠ (getId (getId self t1 c).1.2 t2 (getId self t1 c).2).1.1.
Proof.
  intros (Hc & Hb & Hi) Hne.
  destruct (m_ids self !! t1) as [s1|] eqn:H1.
  - rewrite (getId_hit _ _ _ _ H1). cbn.
    destruct (m_ids self !! t2) as [s2|] eqn:H2.
    + rewrite (getId_hit _ _ _ _ H2). cbn. intros ->. by apply Hne, (Hi t1 t2 s2).
    + rewrite (getId_miss _ _ _ H2). cbn. intros ->.
      destruct (Hb _ _ H1) as (k & Hk & Heq). apply idToString_inj in Heq. lia.
  - rewrite (getId_miss _ _ _ H1). cbn.
    destruct (m_ids self !! t2) as [s2|] eqn:H2.
    + rewrite getId_hit with (s := s2); [|cbn; by rewrite lookup_insert_ne].
      cbn. intros <-. destruct (Hb _ _ H2) as (k & Hk & Heq).
      apply idToString_inj in Heq. lia.
    + rewrite getId_miss; [|cbn; by rewrite lookup_insert_ne].
      cbn. intros Heq%idToString_inj. symmetry in Heq. by apply incr_neq in Heq.
Qed.

(** A call keeps a manager in order as long as the counter has room for one
    more id. *)
Lemma getId_ok self t c :
  IdManager_ok c self → (c + 1 < 2 ^ Npos IdType_bits)%N →
  IdManager_ok (getId self t c).2 (getId self t c).1.2
  ∧ (c ≤ (getId self t c).2 ≤ c + 1)%N.
Proof.
  intros (Hc & Hb & Hi) Hroom.
  destruct (m_ids self !! t) as [s|] eqn:Ht.
  - rewrite (getId_hit _ _ _ _ Ht). cbn. split; [done|lia].
  - rewrite (getId_miss _ _ _ Ht). cbn. rewrite (incr_below _ _ Hroom).
    split; [split; [lia|split]|lia].
    + intros t' s. cbn. destruct (decide (t = t')) as [->|Hne].
      * rewrite lookup_insert_eq. intros [= <-]. exists c. split; [lia|done].
      * rewrite lookup_insert_ne by done. intros Ht'.
        destruct (Hb _ _ Ht') as (k & Hk & ->). exists k. split; [lia|done].
    + intros t1 t2 s. cbn.
      destruct (decide (t = t1)) as [<-|Hne1], (decide (t = t2)) as [<-|Hne2];
        rewrite ?lookup_insert_eq, ?lookup_insert_ne by done; try done.
      * intros [= <-] H2. destruct (Hb _ _ H2) as (k & Hk & Heq).
        apply idToString_inj in Heq. lia.
      * intros H1 [= <-]. destruct (Hb _ _ H1) as (k & Hk & Heq).
        apply idToString_inj in Heq. lia.
      * apply Hi.
Qed.

(** The id a call draws is held by no manager that is in order. *)
Lemma getId_fresh self other t c t' s :
  IdManager_ok c other → m_ids self !! t = None →
  m_ids other !! t' = Some s → (getId self t c).1.1 ≠ s.
Proof.
  intros (Hc & Hb & Hi) Ht Ht'. rewrite (getId_miss _ _ _ Ht). cbn. intros <-.
  destruct (Hb _ _ Ht') as (k & Hk & Heq). apply idToString_inj in Heq. lia.
Qed.

(** *** The ids along a session *)

Lemma frames_ret {A} (a : A) : frames (mret a).
Proof. done. Qed.

Lemma frames_bind {A B} (m : M A) (f : A → M B) :
  frames m → (∀ a, frames (f a)) → frames (m ≫= f).
Proof. intros Hm Hf st. by rewrite exec_bind, Hf, Hm. Qed.

Lemma frames_for_each {A} (l : list A) (body : A → M unit) :
  (∀ x, frames (body x)) → frames (for_each l body).
Proof.
  intros Hb. induction l as [|x l IH]; simpl.
  - apply frames_ret.
  - apply frames_bind; [apply Hb|intros _; apply IH].
Qed.

Lemma frames_get_this : frames get_this.
Proof. done. Qed.

Lemma frames_hook e : frames (hook e).
Proof. done. Qed.

Lemma frames_set_entityNo f : frames (modify_this (λ o, set_entityNo (f o) o)).
Proof. done. Qed.

Lemma frames_set_brushNo f : frames (modify_this (λ o, set_brushNo (f o) o)).
Proof. done. Qed.

Lemma frames_setExporting b : frames (setExporting b).
Proof. done. Qed.

Lemma frames_beginFile rootNodes : frames (beginFile rootNodes).
Proof. done. Qed.

Lemma frames_beginEntity node : frames (beginEntity node).
Proof. done. Qed.

Lemma frames_endEntity node : frames (endEntity node).
Proof. done. Qed.

Lemma frames_brush b : frames (brush b).
Proof. done. Qed.

Create HintDb frames.

#[local] Hint Resolve frames_ret frames_get_this frames_hook frames_set_entityNo
  frames_set_brushNo frames_setExporting frames_beginFile frames_beginEntity
  frames_endEntity frames_brush : frames.

Ltac frames_step :=
  first
    [ solve [auto with frames]
    | apply frames_for_each; intros ?
    | apply frames_bind; [|intros ?]
    | match goal with
      | |- frames (if ?b then _ else _) => destruct b
      | |- frames (match ?x with _ => _ end) => destruct x
      end ].

Lemma frames_entityProperties props : frames (entityProperties props).
Proof. unfold entityProperties, entityProperty. repeat frames_step. Qed.

Lemma frames_brushes bs : frames (brushes bs).
Proof. unfold brushes. repeat frames_step. Qed.

Lemma frames_brushFaces fs : frames (brushFaces fs).
Proof. unfold brushFaces, brushFace. repeat frames_step. Qed.

#[local] Hint Resolve frames_entityProperties frames_brushes frames_brushFaces : frames.

Lemma frames_beginEntity_with node props extra :
  frames (beginEntity_with node props extra).
Proof. unfold beginEntity_with. repeat frames_step. Qed.

#[local] Hint Resolve frames_beginEntity_with : frames.

Lemma frames_entity node props parentProps brushParent :
  frames (entity node props parentProps brushParent).
Proof. unfold entity, visitChildren, accept. repeat frames_step. Qed.

Lemma frames_entity_brushes node props parentProps bs :
  frames (entity_brushes node props parentProps bs).
Proof. unfold entity_brushes. repeat frames_step. Qed.

Lemma frames_defaultLayer w : frames (defaultLayer w).
Proof.
  unfold defaultLayer. cbn zeta. pose proof frames_entity. repeat frames_step.
Qed.

Lemma ids_layerIds_getId t st :
  ids_of (exec (layerIds_getId t) st) = apply_id_effect (ids_layer t) (ids_of st).
Proof. unfold exec. by rewrite run_layerIds_getId. Qed.

Lemma ids_groupIds_getId t st :
  ids_of (exec (groupIds_getId t) st) = apply_id_effect (ids_group t) (ids_of st).
Proof. unfold exec. by rewrite run_groupIds_getId. Qed.

(** Every call does to the ids what [id_effect] says. *)
Lemma run_ids (c : Call) st :
  ids_of (exec (run c) st) = apply_id_effect (id_effect c st) (ids_of st).
Proof.
  destruct c; cbn [run id_effect apply_id_effect]; try done.
  - apply frames_defaultLayer.
  - unfold customLayer. rewrite exec_bind. cbn [result get_this exec fst snd].
    destruct (m_exporting (this st) && _); cbn [negb]; [done|].
    rewrite exec_bind, frames_entity. unfold exec at 1.
    rewrite run_layerProperties. apply ids_layerIds_getId.
  - unfold group. rewrite exec_bind, frames_entity. unfold exec at 1.
    rewrite run_groupProperties. apply ids_groupIds_getId.
  - apply frames_entity.
  - apply frames_entity_brushes.
  - apply frames_beginEntity_with.
  - apply frames_entityProperties.
  - apply frames_brushes.
  - apply frames_brushFaces.
  - rewrite exec_discard. destruct node as [[w|l|g|e|b]|]; try done.
    + unfold parentProperties, accept. rewrite exec_bind. apply ids_layerIds_getId.
    + unfold parentProperties, accept. rewrite exec_bind. apply ids_groupIds_getId.
  - rewrite exec_discard. unfold exec at 1.
    rewrite run_layerProperties. apply ids_layerIds_getId.
  - rewrite exec_discard. unfold exec at 1.
    rewrite run_groupProperties. apply ids_groupIds_getId.
Qed.

Lemma two_le_pow_bits (bits : positive) : (2 ≤ 2 ^ Npos bits)%N.
Proof. change 2%N with (2 ^ 1)%N at 1. apply N.pow_le_mono_r; lia. Qed.

Lemma IdManager_ok_empty (c : N) :
  (c < 2 ^ Npos IdType_bits)%N → IdManager_ok c (mkIdManager ∅).
Proof.
  intros Hc. split; [done|split].
  - intros t s Ht. cbn in Ht. by rewrite lookup_empty in Ht.
  - intros t1 t2 s Ht. cbn in Ht. by rewrite lookup_empty in Ht.
Qed.

Lemma ids_ok_initial : ids_ok initial.
Proof.
  pose proof (two_le_pow_bits IdType_bits).
  split; [|split]; try (apply IdManager_ok_empty; cbn; lia).
  intros t1 t2 s Ht. cbn in Ht. by rewrite lookup_empty in Ht.
Qed.

(** One call keeps the managers in order while the counter has room, and
    draws at most one id. *)
Lemma run_ok (c : Call) st :
  ids_ok st → (currentId st + 1 < 2 ^ Npos IdType_bits)%N →
  ids_ok (exec (run c) st)
  ∧ (currentId st ≤ currentId (exec (run c) st) ≤ currentId st + 1)%N.
Proof.
  intros (HL & HG & Hapart) Hroom.
  pose proof (run_ids c st) as Hids. unfold ids_ok.
  destruct (exec (run c) st) as [c' [e' b' x' L' G'] o'].
  destruct st as [c0 [e0 b0 x0 L G] o0]. cbn in *.
  destruct (id_effect c _); cbn in Hids.
  - injection Hids as -> -> ->. split; [done|lia].
  - injection Hids as -> -> ->.
    destruct (getId_ok L t c0 HL Hroom) as [HL' Hc'].
    split; [split; [done|split]|done].
    + destruct HG as (? & HbG & ?). split; [apply HL'|]. split; [|done].
      eapply ids_below_mono; [apply Hc'|done].
    + intros t1 t2 s H1 H2. destruct (m_ids L !! t) as [s0|] eqn:Ht.
      * rewrite (getId_hit _ _ _ _ Ht) in H1. by apply (Hapart t1 t2 s).
      * destruct (decide (t = t1)) as [<-|Hne].
        -- pose proof (getId_cached L t c0) as Hc. rewrite Hc in H1.
           injection H1 as <-. by apply (getId_fresh L G t c0 t2 _ HG Ht H2).
        -- rewrite (getId_miss _ _ _ Ht) in H1. cbn in H1.
           rewrite lookup_insert_ne in H1 by done. by apply (Hapart t1 t2 s).
  - injection Hids as -> -> ->.
    destruct (getId_ok G t c0 HG Hroom) as [HG' Hc'].
    split; [split; [|split; [done|]]|done].
    + destruct HL as (? & HbL & ?). split; [apply HG'|]. split; [|done].
      eapply ids_below_mono; [apply Hc'|done].
    + intros t1 t2 s H1 H2. destruct (m_ids G !! t) as [s0|] eqn:Ht.
      * rewrite (getId_hit _ _ _ _ Ht) in H2. by apply (Hapart t1 t2 s).
      * destruct (decide (t = t2)) as [<-|Hne].
        -- pose proof (getId_cached G t c0) as Hc. rewrite Hc in H2.
           injection H2 as <-. by apply (getId_fresh G L t c0 t1 _ HL Ht H1).
        -- rewrite (getId_miss _ _ _ Ht) in H2. cbn in H2.
           rewrite lookup_insert_ne in H2 by done. by apply (Hapart t1 t2 s).
  - injection Hids as -> -> ->. rewrite (incr_below _ _ Hroom).
    destruct HL as (? & HbL & ?), HG as (? & HbG & ?).
    split; [split; [|split; [|done]]|lia].
    + split; [lia|]. split; [|done]. eapply ids_below_mono; [|done]; lia.
    + split; [lia|]. split; [|done]. eapply ids_below_mono; [|done]; lia.
Qed.

Lemma exec_run_all_cons c cs st :
  exec (run_all (c :: cs)) st = exec (run_all cs) (exec (run c) st).
Proof. unfold run_all. cbn [for_each]. by rewrite exec_bind. Qed.

(** A session that starts with a fresh process keeps the managers in order
    as long as the counter cannot have wrapped around. *)
Lemma run_all_ok (cs : list Call) st :
  ids_ok st → (currentId st + N.of_nat (length cs) < 2 ^ Npos IdType_bits)%N →
  ids_ok (exec (run_all cs) st).
Proof.
  revert st. induction cs as [|c cs IH]; intros st Hok Hroom; [done|].
  rewrite exec_run_all_cons. cbn [length] in Hroom.
  destruct (run_ok c st Hok) as [Hok' Hc']; [lia|]. apply IH; [done|lia].
Qed.

Lemma session_ok (cs : list Call) :
  (N.of_nat (length cs) + 1 < 2 ^ Npos IdType_bits)%N →
  ids_ok (exec (run_all cs) initial).
Proof. intros Hroom. apply run_all_ok; [apply ids_ok_initial|]. cbn. lia. Qed.

(** No call of the session takes an id away from a manager or changes it. *)
Lemma run_keeps (c : Call) st t s :
  (m_ids (m_layerIds (this st)) !! t = Some s →
   m_ids (m_layerIds (this (exec (run c) st))) !! t = Some s)
  ∧ (m_ids (m_groupIds (this st)) !! t = Some s →
     m_ids (m_groupIds (this (exec (run c) st))) !! t = Some s).
Proof.
  pose proof (run_ids c st) as Hids.
  destruct (exec (run c) st) as [c' [e' b' x' L' G'] o'].
  destruct st as [c0 [e0 b0 x0 L G] o0]. cbn in *.
  destruct (id_effect c _); cbn in Hids; injection Hids as -> -> ->;
    split; try done; apply getId_keeps.
Qed.

Lemma run_all_keeps (cs : list Call) st t s :
  (m_ids (m_layerIds (this st)) !! t = Some s →
   m_ids (m_layerIds (this (exec (run_all cs) st))) !! t = Some s)
  ∧ (m_ids (m_groupIds (this st)) !! t = Some s →
     m_ids (m_groupIds (this (exec (run_all cs) st))) !! t = Some s).
Proof.
  revert st. induction cs as [|c cs IH]; intros st; [done|].
  rewrite exec_run_all_cons. destruct (IH (exec (run c) st)) as [IHL IHG].
  destruct (run_keeps c st t s) as [HL HG]. split; auto.
Qed.

Lemma result_layerIds_getId t st :
  result (layerIds_getId t) st = (getId (m_layerIds (this st)) t (currentId st)).1.1.
Proof. unfold result. by rewrite run_layerIds_getId. Qed.

Lemma result_groupIds_getId t st :
  result (groupIds_getId t) st = (getId (m_groupIds (this st)) t (currentId st)).1.1.
Proof. unfold result. by rewrite run_groupIds_getId. Qed.

Lemma layerIds_getId_stable t cs st :
  result (layerIds_getId t) (exec (run_all cs) (exec (layerIds_getId t) st))
  = result (layerIds_getId t) st.
Proof.
  rewrite !result_layerIds_getId.
  erewrite getId_hit; [reflexivity|].
  apply run_all_keeps. unfold exec. rewrite run_layerIds_getId. cbn.
  apply getId_cached.
Qed.

Lemma groupIds_getId_stable t cs st :
  result (groupIds_getId t) (exec (run_all cs) (exec (groupIds_getId t) st))
  = result (groupIds_getId t) st.
Proof.
  rewrite !result_groupIds_getId.
  erewrite getId_hit; [reflexivity|].
  apply run_all_keeps. unfold exec. rewrite run_groupIds_getId. cbn.
  apply getId_cached.
Qed.

(** C3: asking a manager twice for the id of a node gives the same string
    and the second call changes nothing; two different nodes get different
    ids from a manager that is in order, which the managers of a session are
    as long as the counter cannot have wrapped around; and an id once given
    is given again after any further calls on the serializer, [beginFile]
    among them. *)
Theorem getId_stable_and_distinct :
  (∀ self t c,
     let r := getId self t c in getId r.1.2 t r.2 = r)
  ∧ (∀ self c t1 t2, IdManager_ok c self → t1 ≠ t2 →
       let r1 := getId self t1 c in
       let r2 := getId r1.1.2 t2 r1.2 in
       r1.1.1 ≠ r2.1.1)
  ∧ (∀ cs, (N.of_nat (length cs) + 1 < 2 ^ Npos IdType_bits)%N →
       let st := exec (run_all cs) initial in
       IdManager_ok (currentId st) (m_layerIds (this st))
       ∧ IdManager_ok (currentId st) (m_groupIds (this st)))
  ∧ (∀ st t cs,
       result (layerIds_getId t) (exec (run_all cs) (exec (layerIds_getId t) st))
       = result (layerIds_getId t) st
       ∧ result (groupIds_getId t) (exec (run_all cs) (exec (groupIds_getId t) st))
         = result (groupIds_getId t) st)
  ∧ (∀ st t rootNodes,
       result (layerIds_getId t) (exec (beginFile rootNodes) (exec (layerIds_getId t) st))
       = result (layerIds_getId t) st
       ∧ result (groupIds_getId t) (exec (beginFile rootNodes) (exec (groupIds_getId t) st))
         = result (groupIds_getId t) st).
Proof.
  split; [|split; [|split; [|split]]].
  - intros self t c r. subst r.
    pose proof (getId_cached self t c) as Hc.
    destruct (getId self t c) as [[s self'] c']. cbn in *. by apply getId_hit.
  - intros self c t1 t2 Hok Hne. cbn zeta. by apply getId_distinct.
  - intros cs Hroom. destruct (session_ok cs Hroom) as (HL & HG & _). done.
  - intros st t cs. split; [apply layerIds_getId_stable|apply groupIds_getId_stable].
  - intros st t rootNodes. split.
    + apply (layerIds_getId_stable t [call_beginFile rootNodes]).
    + apply (groupIds_getId_stable t [call_beginFile rootNodes]).
Qed.

(** C1, as the code has it: the two managers of a serializer draw from the
    one static counter of [makeId]: an id that either manager draws is the
    value of that counter, which the draw moves on for both; so, as long as
    the counter cannot have wrapped around, no id of the layer manager is an
    id of the group manager. *)
Theorem ids_drawn_from_one_counter :
  (∀ st t, m_ids (m_layerIds (this st)) !! t = None →
     result (layerIds_getId t) st = idToString (currentId st)
     ∧ currentId (exec (layerIds_getId t) st) = incr IdType_bits (currentId st))
  ∧ (∀ st t, m_ids (m_groupIds (this st)) !! t = None →
       result (groupIds_getId t) st = idToString (currentId st)
       ∧ currentId (exec (groupIds_getId t) st) = incr IdType_bits (currentId st))
  ∧ (∀ cs, (N.of_nat (length cs) + 1 < 2 ^ Npos IdType_bits)%N →
       let st := exec (run_all cs) initial in
       ∀ t1 t2 s1 s2,
         m_ids (m_layerIds (this st)) !! t1 = Some s1 →
         m_ids (m_groupIds (this st)) !! t2 = Some s2 →
         s1 ≠ s2).
Proof.
  split; [|split].
  - intros st t Ht. unfold result, exec. rewrite run_layerIds_getId.
    by rewrite (getId_miss _ _ _ Ht).
  - intros st t Ht. unfold result, exec. rewrite run_groupIds_getId.
    by rewrite (getId_miss _ _ _ Ht).
  - intros cs Hroom st t1 t2 s1 s2 H1 H2 ->.
    destruct (session_ok cs Hroom) as (_ & _ & Hapart). by apply (Hapart t1 t2 s2).
Qed.

(** *** escapeEntityProperties *)

Lemma rev_app_append s1 s2 acc :
  String.rev_app (s1 +:+ s2) acc = String.rev_app s2 (String.rev_app s1 acc).
Proof. revert acc. induction s1 as [|a s1 IH]; intros acc; [done|]. apply IH. Qed.

Lemma rev_snoc s a : String.rev (s +:+ String a "") = String a (String.rev s).
Proof. unfold String.rev. by rewrite rev_app_append. Qed.

Lemma length_snoc s a : String.length (s +:+ String a "") = S (String.length s).
Proof. induction s as [|b s IH]; [done|]. simpl. f_equal. exact IH. Qed.

Lemma get_snoc s a : String.get (String.length s) (s +:+ String a "") = Some a.
Proof. induction s as [|b s IH]; [done|]. exact IH. Qed.

Lemma substring_snoc s a : String.substring 0 (String.length s) (s +:+ String a "") = s.
Proof. induction s as [|b s IH]; [done|]. simpl. f_equal. exact IH. Qed.

Lemma snoc_cases (s : string) : s = "" ∨ ∃ s' a, s = s' +:+ String a "".
Proof.
  induction s as [|b s IH]; [by left|]. right.
  destruct IH as [->|(s' & a & ->)].
  - by exists "", b.
  - by exists (String b s'), a.
Qed.

Lemma string_snoc_ind (P : string → Prop) :
  P "" → (∀ s a, P s → P (s +:+ String a "")) → ∀ s, P s.
Proof.
  intros Hnil Hsnoc s. remember (String.length s) as n eqn:Hn.
  revert s Hn. induction n as [|n IH]; intros s Hn.
  - destruct s; [done|discriminate].
  - destruct (snoc_cases s) as [->|(s' & a & ->)]; [done|].
    apply Hsnoc, IH. rewrite length_snoc in Hn. lia.
Qed.

Lemma trailing_snoc s a :
  trailing_backslashes (s +:+ String a "")
  = if decide (a = backslash) then S (trailing_backslashes s) else 0.
Proof. unfold trailing_backslashes. by rewrite rev_snoc. Qed.

Lemma trailing_le s : (trailing_backslashes s ≤ String.length s)%nat.
Proof.
  induction s as [|s a IH] using string_snoc_ind; [done|].
  rewrite trailing_snoc, length_snoc. destruct (decide (a = backslash)); lia.
Qed.

Lemma find_last_not_of_from_app s1 s2 c i found :
  find_last_not_of_from (s1 +:+ s2) c i found
  = find_last_not_of_from s2 c (i + size s1) (find_last_not_of_from s1 c i found).
Proof.
  revert i found. induction s1 as [|a s1 IH]; intros i found.
  - cbn. by rewrite N.add_0_r.
  - simpl. rewrite IH. f_equal. unfold size. simpl String.length. lia.
Qed.

(** Where [find_last_not_of] points: just before the trailing backslashes,
    and nowhere when the string holds nothing else. *)
Lemma find_last_not_of_backslash s found :
  find_last_not_of_from s backslash 0 found
  = if decide (trailing_backslashes s = String.length s) then found
    else N.of_nat (String.length s - 1 - trailing_backslashes s).
Proof.
  induction s as [|s a IH] using string_snoc_ind; [done|].
  rewrite find_last_not_of_from_app, trailing_snoc, length_snoc. cbn.
  pose proof (trailing_le s) as Hle.
  destruct (decide (a = backslash)) as [->|Hne].
  - rewrite IH. repeat case_decide; first [done | lia | f_equal; lia].
  - clear IH. case_decide; [lia|]. unfold size. lia.
Qed.

Lemma two_divides_pow (w : positive) : (2 | 2 ^ Zpos w)%Z.
Proof.
  exists (2 ^ (Zpos w - 1))%Z.
  replace (Zpos w) with (Z.succ (Zpos w - 1)) at 1 by lia.
  rewrite Z.pow_succ_r by lia. lia.
Qed.

Lemma size_t_sub_parity (a b : N) :
  Z.of_N (size_t_sub a b mod 2) = ((Z.of_N a - Z.of_N b) mod 2)%Z.
Proof.
  unfold size_t_sub. rewrite N2Z.inj_mod. cbn [Z.of_N].
  rewrite Z2N.id by (apply Z.mod_pos_bound; lia).
  apply Z.mod_mod_divide, two_divides_pow.
Qed.

(** The test [(l - p) % 2 == 0] holds when the difference is one more than
    an odd number. *)
Lemma size_t_sub_even (l p : N) (t : nat) :
  ((Z.of_N l - Z.of_N p) mod 2 = (Z.of_nat t + 1) mod 2)%Z →
  bool_decide ((size_t_sub l p) mod 2 = 0)%N = negb (Nat.even t).
Proof.
  intros Hp. pose proof (size_t_sub_parity l p) as Hs. rewrite Hp in Hs.
  destruct (Nat.even t) eqn:He; cbn [negb].
  - apply Nat.even_spec in He as [k ->]. apply bool_decide_eq_false_2.
    intros H0. rewrite H0 in Hs. revert Hs. Z.div_mod_to_equations. lia.
  - apply bool_decide_eq_true_2.
    assert (Nat.odd t = true) as [k ->]%Nat.odd_spec by (by rewrite <- Nat.negb_even, He).
    revert Hs. Z.div_mod_to_equations. lia.
Qed.

Lemma npos_val : Z.of_N npos = (2 ^ Zpos size_t_bits - 1)%Z.
Proof.
  unfold npos. pose proof (two_le_pow_bits size_t_bits).
  rewrite N2Z.inj_sub by lia. by rewrite N2Z.inj_pow.
Qed.

Lemma escapeEntityProperties_eq (s : string) :
  escapeEntityProperties s
  = str_escape_if_necessary
      (if Nat.even (trailing_backslashes s) then s else without_last s) quote.
Proof.
  destruct (snoc_cases s) as [->|(s' & a & ->)]; [done|].
  unfold escapeEntityProperties, without_last, find_last_not_of, size.
  rewrite length_snoc, trailing_snoc.
  replace (N.to_nat (N.of_nat (S (String.length s')) - 1)) with (String.length s') by lia.
  replace (S (String.length s') - 1) with (String.length s') by lia.
  rewrite get_snoc, substring_snoc.
  rewrite bool_decide_eq_true_2 by lia. cbn [andb].
  destruct (decide (a = backslash)) as [->|Hne].
  2:{ rewrite bool_decide_eq_false_2 by congruence. reflexivity. }
  rewrite bool_decide_eq_true_2 by done.
  rewrite find_last_not_of_backslash, trailing_snoc, length_snoc.
  rewrite !(decide_True (P := backslash = backslash)) by done.
  pose proof (trailing_le s') as Hle.
  set (t := trailing_backslashes s') in *.
  rewrite (size_t_sub_even _ _ (S t)).
  { by destruct (Nat.even (S t)). }
  case_decide as Hall.
  - rewrite npos_val. destruct (two_divides_pow size_t_bits) as [q ->].
    Z.div_mod_to_equations. lia.
  - Z.div_mod_to_equations. lia.
Qed.

Lemma without_last_snoc s a : without_last (s +:+ String a "") = s.
Proof.
  unfold without_last. rewrite length_snoc.
  replace (S (String.length s) - 1) with (String.length s) by lia.
  apply substring_snoc.
Qed.

(** C8: [escapeEntityProperties] escapes the whole string when it ends with
    an even number of backslashes, none included, and the string without its
    last character, which is a backslash, when that number is odd; so two
    backslashes after an "a" are both kept and a single one is dropped. *)
Theorem escapeEntityProperties_rule (s : string) :
  escapeEntityProperties s
  = str_escape_if_necessary
      (if Nat.even (trailing_backslashes s) then s else without_last s) quote
  ∧ (Nat.even (trailing_backslashes s) = false →
     s = without_last s +:+ String backslash "")
  ∧ escapeEntityProperties "a\\" = str_escape_if_necessary "a\\" quote
  ∧ escapeEntityProperties "a\" = str_escape_if_necessary "a" quote.
Proof.
  split; [apply escapeEntityProperties_eq|]. split; [|split].
  - destruct (snoc_cases s) as [->|(s' & a & ->)]; [done|].
    rewrite trailing_snoc, without_last_snoc.
    destruct (decide (a = backslash)) as [->|Hne]; done.
  - by rewrite escapeEntityProperties_eq.
  - by rewrite escapeEntityProperties_eq.
Qed.

End Properties.

(** ** The properties on concrete inputs *)

Section Witnesses.
#[local] Existing Instance sample_platform.
#[local] Existing Instance sample_keys.
#[local] Existing Instance sample_values.

(** C1 fails as stated: in a new process the first layer gets the id 1 and
    the first group the id 2, not 1 again: the group manager does not count
    from 1 on its own, and the two nodes do not share an id. *)
Lemma separate_counters_counterexample :
  let st := exec (run_all sample_session) initial in
  m_ids (m_layerIds (this st)) !! layer_addr sample_layer = Some "1"
  ∧ m_ids (m_groupIds (this st)) !! group_addr sample_group = Some "2"
  ∧ m_ids (m_groupIds (this st)) !! group_addr sample_group ≠ Some "1".
Proof. vm_compute. repeat split; congruence. Qed.

Lemma ids_drawn_from_one_counter_witness :
  let st := exec (run_all sample_session) initial in
  (m_ids (m_layerIds (this initial)) !! 10%N = None
   ∧ result (layerIds_getId 10%N) initial = idToString (currentId initial))
  ∧ (m_ids (m_groupIds (this initial)) !! 20%N = None
     ∧ result (groupIds_getId 20%N) initial = idToString (currentId initial))
  ∧ (N.of_nat (length sample_session) + 1 < 2 ^ Npos IdType_bits)%N
  ∧ ∀ t1 t2 s1 s2,
      m_ids (m_layerIds (this st)) !! t1 = Some s1 →
      m_ids (m_groupIds (this st)) !! t2 = Some s2 → s1 ≠ s2.
Proof.
  pose proof ids_drawn_from_one_counter as (HL & HG & Hsession).
  split; [split; [reflexivity|apply HL; reflexivity]|].
  split; [split; [reflexivity|apply HG; reflexivity]|].
  split; [reflexivity|]. apply Hsession. reflexivity.
Defined.

(** C2 fails as stated: exported with its default layer marked
    omit-from-export, the world entity is emitted with the omit-from-export
    key next to the property the world had, not with that property alone. *)
Lemma defaultLayer_export_counterexample :
  let st := exec (setExporting true) initial in
  m_exporting (this st) = true
  ∧ omitFromExport (layer (world_defaultLayer sample_world)) = true
  ∧ properties (world_entity sample_world)
    = [mkEntityProperty "classname" "worldspawn"]
  ∧ emitted_properties (events_of (defaultLayer sample_world) st)
    = [ mkEntityProperty "classname" "worldspawn";
        mkEntityProperty "_tb_layer_omit_from_export" "1" ]
  ∧ emitted_properties (events_of (defaultLayer sample_world) st)
    ≠ properties (world_entity sample_world).
Proof. vm_compute. repeat split; congruence. Qed.

Lemma defaultLayer_emits_witness :
  let st := exec (setExporting true) initial in
  let node := Some (World sample_world) in
  let merged := properties (defaultLayer_worldEntity sample_world) in
  (m_exporting (this st) = true
   ∧ omitFromExport (layer (world_defaultLayer sample_world)) = true
   ∧ events_of (defaultLayer sample_world) st
     = [doBeginEntity node] ++ map doEntityProperty merged ++ [doEndEntity node])
  ∧ (m_exporting (this initial)
       && omitFromExport (layer (world_defaultLayer sample_world)) = false
     ∧ events_of (defaultLayer sample_world) initial
       = [doBeginEntity node] ++ map doEntityProperty merged
         ++ map (λ b, doBrush (Some b))
              (brush_children (LayerN (world_defaultLayer sample_world)))
         ++ [doEndEntity node]).
Proof.
  cbn zeta. split.
  - pose proof (defaultLayer_emits sample_world (exec (setExporting true) initial))
      as (Hexport & _ & _).
    split; [reflexivity|]. split; [reflexivity|].
    apply Hexport; reflexivity.
  - pose proof (defaultLayer_emits sample_world initial) as (_ & Hsave & _).
    split; [reflexivity|]. apply Hsave; reflexivity.
Defined.

Lemma getId_stable_and_distinct_witness :
  let r1 := getId (mkIdManager ∅) 10%N 1%N in
  let r2 := getId r1.1.2 20%N r1.2 in
  (IdManager_ok 1%N (mkIdManager ∅) ∧ 10%N ≠ 20%N ∧ r1.1.1 ≠ r2.1.1)
  ∧ ((N.of_nat (length sample_session) + 1 < 2 ^ Npos IdType_bits)%N
     ∧ IdManager_ok (currentId (exec (run_all sample_session) initial))
         (m_layerIds (this (exec (run_all sample_session) initial)))).
Proof.
  pose proof getId_stable_and_distinct as (_ & Hdistinct & Hsession & _).
  assert (IdManager_ok 1%N (mkIdManager ∅)) as Hok.
  { apply IdManager_ok_empty. reflexivity. }
  cbn zeta. split.
  - split; [exact Hok|]. split; [discriminate|].
    apply (Hdistinct (mkIdManager ∅) 1%N 10%N 20%N Hok). discriminate.
  - split; [reflexivity|]. apply (Hsession sample_session). reflexivity.
Defined.

Lemma object_numbers_follow_calls_witness :
  ((5 + 1 < 2 ^ Npos ObjectNo_bits)%N ∧ incr ObjectNo_bits 5 = 6%N)
  ∧ (counting (call_setExporting true) = false
     ∧ counters (exec (run (call_setExporting true)) initial) = counters initial)
  ∧ (forallb (λ e, negb (counts e)) (events_of (run call_endFile) initial) = true
     ∧ counters (exec (run call_endFile) initial) = counters initial).
Proof.
  pose proof object_numbers_follow_calls
    as (_ & _ & _ & _ & Hincr & Hkept & _ & Hidle).
  split; [|split].
  - split; [reflexivity|]. apply Hincr. reflexivity.
  - split; [reflexivity|]. apply Hkept. reflexivity.
  - split; [reflexivity|]. apply Hidle. reflexivity.
Defined.

Lemma defaultLayer_overlay_witness :
  let l := world_defaultLayer sample_world_stale in
  let merged := properties (defaultLayer_worldEntity sample_world_stale) in
  (color (layer l) = None ∧ layer_lockState l = Lock_Unlocked
   ∧ layer_hidden l = false ∧ omitFromExport (layer l) = false
   ∧ ∀ k, k ∈ derived_keys → k ∉ key <$> merged)
  ∧ (NoDup (key <$> properties (world_entity sample_world_stale))
     ∧ NoDup (key <$> merged)).
Proof.
  pose proof (defaultLayer_overlay sample_world_stale initial)
    as (_ & _ & _ & _ & _ & _ & _ & _ & Hnone & Hnodup & _).
  assert (NoDup (key <$> properties (world_entity sample_world_stale))) as Hnd.
  { apply (bool_decide_unpack _). vm_compute. exact I. }
  cbn zeta. split.
  - repeat (split; [reflexivity|]). apply Hnone; reflexivity.
  - split; [exact Hnd|]. apply Hnodup, Hnd.
Defined.

Lemma customLayer_emits_witness :
  let st := exec (setExporting true) initial in
  (m_exporting (this st) = true ∧ omitFromExport (layer sample_layer) = true
   ∧ customLayer sample_layer st = (tt, st))
  ∧ (m_exporting (this initial) && omitFromExport (layer sample_layer) = false
     ∧ output (exec (customLayer sample_layer) initial)
       = output initial
         ++ [doBeginEntity (Some (LayerN sample_layer))]
         ++ map doEntityProperty
              (layer_record sample_layer
                 (result (layerIds_getId (layer_addr sample_layer)) initial))
         ++ map (λ b, doBrush (Some b)) (brush_children (LayerN sample_layer))
         ++ [doEndEntity (Some (LayerN sample_layer))]).
Proof.
  cbn zeta. split.
  - pose proof (customLayer_emits sample_layer (exec (setExporting true) initial))
      as (Hskip & _).
    split; [reflexivity|]. split; [reflexivity|]. apply Hskip; reflexivity.
  - pose proof (customLayer_emits sample_layer initial) as (_ & Hemit).
    split; [reflexivity|]. apply Hemit; reflexivity.
Defined.

Lemma escapeEntityProperties_rule_witness :
  Nat.even (trailing_backslashes "a\") = false
  ∧ "a\" = without_last "a\" +:+ String backslash "".
Proof.
  pose proof (escapeEntityProperties_rule "a\") as (_ & Hodd & _).
  split; [reflexivity|]. apply Hodd. reflexivity.
Defined.

(** *** The model at work *)

(** Two layers that agree in every field but their address get two ids. *)
Example twin_layers_get_two_ids :
  let twin (a : Addr) : LayerNode :=
    mkLayerNode a "twin" Lock_Unlocked false (mkLayer None None false) [] in
  result (layerProperties (twin 31%N) ≫= λ p1,
          layerProperties (twin 32%N) ≫= λ p2,
          mret (value <$> p1 !! 3%nat, value <$> p2 !! 3%nat)) initial
  = (Some "1", Some "2").
Proof. reflexivity. Qed.

(** The hooks called for the sample layer when saving, and nothing when
    exporting. *)
Example customLayer_sample :
  output (exec (customLayer sample_layer) initial)
  = [ doBeginEntity (Some (LayerN sample_layer));
      doEntityProperty (mkEntityProperty "classname" "layer-marker");
      doEntityProperty (mkEntityProperty "group-type" "layer-marker");
      doEntityProperty (mkEntityProperty "layer-name" "walls");
      doEntityProperty (mkEntityProperty "layer-id" "1");
      doEntityProperty (mkEntityProperty "layer-sort-index" "3");
      doEntityProperty (mkEntityProperty "_tb_layer_locked" "1");
      doEntityProperty (mkEntityProperty "_tb_layer_omit_from_export" "1");
      doBrush (Some (mkBrushNode 11%N));
      doBrush (Some (mkBrushNode 14%N));
      doEndEntity (Some (LayerN sample_layer)) ]
  ∧ output (exec (setExporting true ;; customLayer sample_layer) initial) = [].
Proof. split; reflexivity. Qed.

(** The stale keys of the world are gone after the overlay. *)
Example defaultLayer_sample_stale :
  properties (defaultLayer_worldEntity sample_world_stale)
  = [mkEntityProperty "classname" "worldspawn"].
Proof. reflexivity. Qed.

(** Exported, a locked default layer marked omit-from-export gives the world
    entity its own pairs, the locked key and the omit-from-export key, and no
    brush; saved, the same pairs and the brush of the default layer. *)
Example defaultLayer_sample_locked :
  events_of (defaultLayer sample_world_locked) (exec (setExporting true) initial)
  = [ doBeginEntity (Some (World sample_world_locked));
      doEntityProperty (mkEntityProperty "classname" "worldspawn");
      doEntityProperty (mkEntityProperty "message" "start");
      doEntityProperty (mkEntityProperty "_tb_layer_locked" "1");
      doEntityProperty (mkEntityProperty "_tb_layer_omit_from_export" "1");
      doEndEntity (Some (World sample_world_locked)) ]
  ∧ events_of (defaultLayer sample_world_locked) initial
    = [ doBeginEntity (Some (World sample_world_locked));
        doEntityProperty (mkEntityProperty "classname" "worldspawn");
        doEntityProperty (mkEntityProperty "message" "start");
        doEntityProperty (mkEntityProperty "_tb_layer_locked" "1");
        doEntityProperty (mkEntityProperty "_tb_layer_omit_from_export" "1");
        doBrush (Some (mkBrushNode 3%N));
        doEndEntity (Some (World sample_world_locked)) ].
Proof. split; reflexivity. Qed.

(** The object numbers along a file with two entities. *)
Example object_numbers_sample :
  let st := exec (run_all [ call_beginFile []; call_customLayer sample_layer;
                            call_group sample_group [] ]) initial in
  counters st = (2%N, 0%N)
  ∧ counters (exec (run_all [call_beginEntity None; call_brush None; call_brush None]) st)
    = (2%N, 2%N)
  ∧ counters (exec (beginFile []) st) = (0%N, 0%N).
Proof. repeat split; reflexivity. Qed.

(** The object numbers wrap around at the greatest value of the type. *)
Example object_number_wraps :
  incr ObjectNo_bits (2 ^ 32 - 1) = 0%N.
Proof. reflexivity. Qed.

(** Counting the trailing backslashes; a string of backslashes only is where
    [find_last_not_of] answers [npos]. *)
Example trailing_backslashes_samples :
  trailing_backslashes "" = 0 ∧ trailing_backslashes "a\" = 1
  ∧ trailing_backslashes "a\\" = 2 ∧ trailing_backslashes "\\\" = 3
  ∧ trailing_backslashes "\a" = 0.
Proof. repeat split; reflexivity. Qed.

Example escapeEntityProperties_samples :
  escapeEntityProperties "a\" = "a" ∧ escapeEntityProperties "a\\" = "a\\"
  ∧ escapeEntityProperties "\\\" = "\\" ∧ escapeEntityProperties "\\" = "\\"
  ∧ escapeEntityProperties "" = "" ∧ find_last_not_of "\\\" backslash = npos.
Proof. repeat split; reflexivity. Qed.

End Witnesses.

(** ** The rest of the serializer *)

Section Further.
Context {platform : Platform} {keys : PropertyKeys.Names}
  {values : PropertyValues.Names}.

(** *** Loops and the two overloads of entity *)

Lemma incr_n_below (n : nat) (k : N) :
  (k + N.of_nat n < 2 ^ Npos ObjectNo_bits)%N → incr_n n k = (k + N.of_nat n)%N.
Proof.
  revert k. induction n as [|n IH]; intros k Hk.
  - unfold incr_n. cbn. lia.
  - rewrite incr_n_S. rewrite Nat2N.inj_succ in *.
    rewrite incr_below by lia. rewrite IH by lia. lia.
Qed.

Lemma result_entityNo st : result entityNo st = m_entityNo (this st).
Proof. reflexivity. Qed.

Lemma result_brushNo st : result brushNo st = m_brushNo (this st).
Proof. reflexivity. Qed.

Lemma run_entity_brushes node props parentProps bs st :
  entity_brushes node props parentProps bs st
  = (tt, mkState (currentId st)
           (set_entityNo (incr ObjectNo_bits (m_entityNo (this st)))
              (set_brushNo (incr_n (length bs) 0) (this st)))
           (output st ++ [doBeginEntity node]
              ++ map doEntityProperty (props ++ parentProps)
              ++ map doBrush bs ++ [doEndEntity node])).
Proof.
  unfold entity_brushes, beginEntity_with, beginEntity, endEntity.
  unfold mbind, M_bind, modify_this, hook.
  rewrite run_entityProperties. rewrite run_entityProperties. rewrite run_brushes.
  unfold set_entityNo, set_brushNo. cbn.
  rewrite map_app, <- !app_assoc. reflexivity.
Qed.

(** X1: the overload of [entity] that visits the children of a node does
    what the overload with a list of brushes does on the direct brush
    children of that node: the two leave the same state. *)
Theorem entity_overloads_agree node props parentProps brushParent st :
  entity node props parentProps brushParent st
  = entity_brushes node props parentProps (map Some (brush_children brushParent)) st.
Proof.
  rewrite run_entity, run_entity_brushes. by rewrite length_map, map_map.
Qed.

Lemma run_beginEntity_with node props extra st :
  beginEntity_with node props extra st
  = (tt, mkState (currentId st) (set_brushNo 0 (this st))
           (output st ++ [doBeginEntity node] ++ map doEntityProperty (props ++ extra))).
Proof.
  unfold beginEntity_with, beginEntity, mbind, M_bind, modify_this, hook.
  rewrite run_entityProperties. rewrite run_entityProperties. cbn.
  rewrite map_app, <- !app_assoc. reflexivity.
Qed.

(** X2: how the pairs are divided between the properties and the parent
    properties is of no matter: [beginEntity] and both overloads of [entity]
    do the same with the concatenation as the properties and no parent
    properties. *)
Theorem properties_split_irrelevant node props parentProps :
  (∀ st, beginEntity_with node props parentProps st
         = beginEntity_with node (props ++ parentProps) [] st)
  ∧ (∀ brushParent st,
       entity node props parentProps brushParent st
       = entity node (props ++ parentProps) [] brushParent st)
  ∧ (∀ bs st,
       entity_brushes node props parentProps bs st
       = entity_brushes node (props ++ parentProps) [] bs st).
Proof.
  split; [|split]; intros.
  - by rewrite !run_beginEntity_with, app_nil_r.
  - by rewrite !run_entity, app_nil_r.
  - by rewrite !run_entity_brushes, app_nil_r.
Qed.

(** X3: [brushes] calls [doBrush] once for every brush of the list, in the
    order of the list, leaves the entity number and moves the brush number
    on by the length of the list, which is plain addition as long as the
    greatest value of [ObjectNo] is not passed. *)
Theorem brushes_counts (bs : list (ptr BrushNode)) st :
  events_of (brushes bs) st = map doBrush bs
  ∧ result entityNo (exec (brushes bs) st) = result entityNo st
  ∧ result brushNo (exec (brushes bs) st) = incr_n (length bs) (result brushNo st)
  ∧ ((result brushNo st + N.of_nat (length bs) < 2 ^ Npos ObjectNo_bits)%N →
     result brushNo (exec (brushes bs) st)
     = (result brushNo st + N.of_nat (length bs))%N).
Proof.
  assert (exec (brushes bs) st
          = mkState (currentId st)
              (set_brushNo (incr_n (length bs) (m_brushNo (this st))) (this st))
              (output st ++ map doBrush bs)) as Hrun.
  { unfold exec. by rewrite run_brushes. }
  split; [|split; [|split]].
  - apply events_of_app. by rewrite Hrun.
  - by rewrite Hrun.
  - by rewrite Hrun.
  - intros Hroom. rewrite Hrun. cbn. by apply incr_n_below.
Qed.

(** X4: after [entity] the entity number has moved on by one and the brush
    number is the number of brushes written for this entity, whatever it was
    before, as long as that number fits [ObjectNo]: the brush number is left
    standing when the entity ends. *)
Theorem entity_counts node props parentProps brushParent st :
  result entityNo (exec (entity node props parentProps brushParent) st)
  = incr ObjectNo_bits (result entityNo st)
  ∧ ((N.of_nat (length (brush_children brushParent)) < 2 ^ Npos ObjectNo_bits)%N →
     result brushNo (exec (entity node props parentProps brushParent) st)
     = N.of_nat (length (brush_children brushParent))).
Proof.
  unfold exec. rewrite run_entity. split; [done|].
  intros Hroom. rewrite result_brushNo. cbn [snd this set_entityNo set_brushNo m_brushNo].
  rewrite incr_n_below; lia.
Qed.

(** *** group *)

Lemma emitted_properties_record node props bs :
  emitted_properties ([doBeginEntity node] ++ map doEntityProperty props
                      ++ map doBrush bs ++ [doEndEntity node])
  = props.
Proof.
  rewrite !emitted_properties_app, emitted_properties_props, emitted_properties_brushes.
  cbn. by rewrite app_nil_r.
Qed.

Lemma run_group (g : GroupNode) parentProps st :
  group g parentProps st
  = entity (Some (GroupN g))
      (group_record g (result (groupIds_getId (group_addr g)) st)) parentProps
      (GroupN g) (exec (groupIds_getId (group_addr g)) st).
Proof.
  unfold group, mbind at 1. unfold M_bind. by rewrite run_groupProperties.
Qed.

Lemma events_group (g : GroupNode) parentProps st :
  events_of (group g parentProps) st
  = [doBeginEntity (Some (GroupN g))]
    ++ map doEntityProperty
         (group_record g (result (groupIds_getId (group_addr g)) st) ++ parentProps)
    ++ map doBrush (map Some (brush_children (GroupN g)))
    ++ [doEndEntity (Some (GroupN g))].
Proof.
  apply events_of_app. unfold exec at 1. rewrite run_group, run_entity.
  cbn [snd output]. by rewrite output_getId_group, map_map.
Qed.

(** X5: [group] always writes the group, when exporting as well: one entity
    with the class name, the group type, the name and the id of the group,
    then the parent properties, then the direct brush children; the
    exporting flag has no part in it. *)
Theorem group_emits (g : GroupNode) parentProps st :
  events_of (group g parentProps) st
  = [doBeginEntity (Some (GroupN g))]
    ++ map doEntityProperty
         (group_record g (result (groupIds_getId (group_addr g)) st) ++ parentProps)
    ++ map (λ b, doBrush (Some b)) (brush_children (GroupN g))
    ++ [doEndEntity (Some (GroupN g))]
  ∧ ∀ b, events_of (group g parentProps) (exec (setExporting b) st)
         = events_of (group g parentProps) st.
Proof.
  split.
  - rewrite events_group, map_map. reflexivity.
  - intros b. rewrite !events_group, !result_groupIds_getId. reflexivity.
Qed.

(** *** The exporting flag *)

Lemma keeps_exporting_ret {A} (a : A) : keeps_exporting (mret a).
Proof. done. Qed.

Lemma keeps_exporting_bind {A B} (m : M A) (f : A → M B) :
  keeps_exporting m → (∀ a, keeps_exporting (f a)) → keeps_exporting (m ≫= f).
Proof. intros Hm Hf st. by rewrite exec_bind, Hf, Hm. Qed.

Lemma keeps_exporting_for_each {A} (l : list A) (body : A → M unit) :
  (∀ x, keeps_exporting (body x)) → keeps_exporting (for_each l body).
Proof.
  intros Hb. induction l as [|x l IH]; simpl.
  - apply keeps_exporting_ret.
  - apply keeps_exporting_bind; [apply Hb|intros _; apply IH].
Qed.

Lemma keeps_exporting_get_this : keeps_exporting get_this.
Proof. done. Qed.

Lemma keeps_exporting_hook e : keeps_exporting (hook e).
Proof. done. Qed.

Lemma keeps_exporting_set_entityNo f :
  keeps_exporting (modify_this (λ o, set_entityNo (f o) o)).
Proof. done. Qed.

Lemma keeps_exporting_set_brushNo f :
  keeps_exporting (modify_this (λ o, set_brushNo (f o) o)).
Proof. done. Qed.

Lemma keeps_exporting_layerIds_getId t : keeps_exporting (layerIds_getId t).
Proof. intros st. unfold exec. by rewrite run_layerIds_getId. Qed.

Lemma keeps_exporting_groupIds_getId t : keeps_exporting (groupIds_getId t).
Proof. intros st. unfold exec. by rewrite run_groupIds_getId. Qed.

Create HintDb keeps_exporting.

#[local] Hint Resolve keeps_exporting_ret keeps_exporting_get_this keeps_exporting_hook
  keeps_exporting_set_entityNo keeps_exporting_set_brushNo
  keeps_exporting_layerIds_getId keeps_exporting_groupIds_getId : keeps_exporting.

Ltac keeps_exporting_step :=
  first
    [ solve [auto with keeps_exporting]
    | apply keeps_exporting_for_each; intros ?
    | apply keeps_exporting_bind; [|intros ?]
    | match goal with
      | |- keeps_exporting (if ?b then _ else _) => destruct b
      | |- keeps_exporting (match ?x with _ => _ end) => destruct x
      end ].

Lemma keeps_exporting_run (c : Call) :
  sets_exporting c = false → keeps_exporting (run c).
Proof.
  destruct c; try discriminate; intros _; cbn [run];
    unfold discard, entityNo, brushNo, exporting, beginFile, endFile,
      defaultLayer, customLayer, group, entity, entity_brushes, beginEntity_with,
      beginEntity, endEntity, entityProperties, entityProperty, brushes, brush,
      brushFaces, brushFace, parentProperties, layerProperties, groupProperties,
      visitChildren, accept;
    repeat keeps_exporting_step.
  all: done.
Qed.

(** X6: [exporting()] answers with the value last given to [setExporting],
    and no other call changes the flag, [beginFile] included: it holds along
    every sequence of calls without [setExporting]. *)
Theorem exporting_set_by_setExporting_only :
  (∀ b st, result exporting (exec (setExporting b) st) = b)
  ∧ (∀ c st, sets_exporting c = false →
       result exporting (exec (run c) st) = result exporting st)
  ∧ (∀ cs st, forallb (λ c, negb (sets_exporting c)) cs = true →
       result exporting (exec (run_all cs) st) = result exporting st).
Proof.
  split; [done|]. split.
  - intros c st Hc. by apply keeps_exporting_run.
  - intros cs. induction cs as [|c cs IH]; intros st Hcs; [done|].
    cbn in Hcs. apply andb_true_iff in Hcs as [Hc Hcs].
    rewrite exec_run_all_cons, IH by done.
    apply keeps_exporting_run. by destruct (sets_exporting c).
Qed.

(** *** Back references *)

Lemma run_customLayer (l : LayerNode) st :
  m_exporting (this st) && omitFromExport (layer l) = false →
  customLayer l st
  = entity (Some (LayerN l))
      (layer_record l (result (layerIds_getId (layer_addr l)) st)) [] (LayerN l)
      (exec (layerIds_getId (layer_addr l)) st).
Proof.
  intros Hc. unfold customLayer, mbind at 1. unfold M_bind, get_this.
  rewrite Hc. cbn [negb]. unfold mbind, M_bind. by rewrite run_layerProperties.
Qed.

Lemma events_customLayer (l : LayerNode) st :
  m_exporting (this st) && omitFromExport (layer l) = false →
  events_of (customLayer l) st
  = [doBeginEntity (Some (LayerN l))]
    ++ map doEntityProperty (layer_record l (result (layerIds_getId (layer_addr l)) st))
    ++ map doBrush (map Some (brush_children (LayerN l)))
    ++ [doEndEntity (Some (LayerN l))].
Proof.
  intros Hc. apply events_of_app. unfold exec at 1.
  rewrite (run_customLayer _ _ Hc), run_entity.
  cbn [snd output]. by rewrite output_getId_layer, map_map, app_nil_r.
Qed.

Lemma exec_customLayer (l : LayerNode) st :
  m_exporting (this st) && omitFromExport (layer l) = false →
  exec (customLayer l) st
  = exec (run (call_entity (Some (LayerN l))
                 (layer_record l (result (layerIds_getId (layer_addr l)) st)) []
                 (LayerN l)))
      (exec (layerIds_getId (layer_addr l)) st).
Proof. intros Hc. unfold exec at 1. by rewrite (run_customLayer _ _ Hc). Qed.

Lemma exec_group (g : GroupNode) parentProps st :
  exec (group g parentProps) st
  = exec (run (call_entity (Some (GroupN g))
                 (group_record g (result (groupIds_getId (group_addr g)) st))
                 parentProps (GroupN g)))
      (exec (groupIds_getId (group_addr g)) st).
Proof. unfold exec at 1. by rewrite run_group. Qed.

Lemma result_parentProperties_layer (l : LayerNode) st :
  result (parentProperties (Some (LayerN l))) st
  = [mkEntityProperty PropertyKeys.Layer (result (layerIds_getId (layer_addr l)) st)].
Proof. unfold parentProperties, accept. by rewrite result_bind. Qed.

Lemma result_parentProperties_group (g : GroupNode) st :
  result (parentProperties (Some (GroupN g))) st
  = [mkEntityProperty PropertyKeys.Group (result (groupIds_getId (group_addr g)) st)].
Proof. unfold parentProperties, accept. by rewrite result_bind. Qed.

Lemma exec_parentProperties_layer (l : LayerNode) st :
  exec (parentProperties (Some (LayerN l))) st = exec (layerIds_getId (layer_addr l)) st.
Proof. unfold parentProperties, accept. by rewrite exec_bind. Qed.

Lemma exec_parentProperties_group (g : GroupNode) st :
  exec (parentProperties (Some (GroupN g))) st = exec (groupIds_getId (group_addr g)) st.
Proof. unfold parentProperties, accept. by rewrite exec_bind. Qed.

(** X7: the id in the record of a layer is the id of every back reference
    to that layer.  When [customLayer] writes the layer, its fourth property
    is the layer id, and [parentProperties] of the layer gives that id under
    the [Layer] key after any further calls; and when [parentProperties] was
    asked first, the record written later carries the id it gave. *)
Theorem layer_back_reference_matches_record (l : LayerNode) (cs : list Call) st :
  m_exporting (this st) && omitFromExport (layer l) = false →
  let id := result (layerIds_getId (layer_addr l)) st in
  emitted_properties (events_of (customLayer l) st) !! 3%nat
  = Some (mkEntityProperty PropertyKeys.LayerId id)
  ∧ result (parentProperties (Some (LayerN l)))
      (exec (run_all cs) (exec (customLayer l) st))
    = [mkEntityProperty PropertyKeys.Layer id]
  ∧ (let st' := exec (run_all cs) (exec (parentProperties (Some (LayerN l))) st) in
     result (parentProperties (Some (LayerN l))) st
     = [mkEntityProperty PropertyKeys.Layer id]
     ∧ (m_exporting (this st') && omitFromExport (layer l) = false →
        emitted_properties (events_of (customLayer l) st') !! 3%nat
        = Some (mkEntityProperty PropertyKeys.LayerId id))).
Proof.
  intros Hc id. split; [|split].
  - rewrite (events_customLayer _ _ Hc), emitted_properties_record. reflexivity.
  - rewrite result_parentProperties_layer, (exec_customLayer _ _ Hc).
    rewrite <- exec_run_all_cons. by rewrite layerIds_getId_stable.
  - cbn zeta. split; [apply result_parentProperties_layer|]. intros Hc'.
    rewrite (events_customLayer _ _ Hc'), emitted_properties_record.
    rewrite exec_parentProperties_layer, layerIds_getId_stable. reflexivity.
Qed.

(** X8: the id in the record of a group is the id of every back reference
    to that group, in either order of the two calls and with any calls in
    between. *)
Theorem group_back_reference_matches_record
    (g : GroupNode) (parentProps : list EntityProperty) (cs : list Call) st :
  let id := result (groupIds_getId (group_addr g)) st in
  emitted_properties (events_of (group g parentProps) st) !! 3%nat
  = Some (mkEntityProperty PropertyKeys.GroupId id)
  ∧ result (parentProperties (Some (GroupN g)))
      (exec (run_all cs) (exec (group g parentProps) st))
    = [mkEntityProperty PropertyKeys.Group id]
  ∧ (let st' := exec (run_all cs) (exec (parentProperties (Some (GroupN g))) st) in
     result (parentProperties (Some (GroupN g))) st
     = [mkEntityProperty PropertyKeys.Group id]
     ∧ emitted_properties (events_of (group g parentProps) st') !! 3%nat
       = Some (mkEntityProperty PropertyKeys.GroupId id)).
Proof.
  intros id. split; [|split].
  - rewrite events_group, emitted_properties_record. reflexivity.
  - rewrite result_parentProperties_group, exec_group.
    rewrite <- exec_run_all_cons. by rewrite groupIds_getId_stable.
  - cbn zeta. split; [apply result_parentProperties_group|].
    rewrite events_group, emitted_properties_record.
    rewrite exec_parentProperties_group, groupIds_getId_stable. reflexivity.
Qed.

(** *** Drawing ids *)

Lemma apply_ids_layer_cached t s (i : N * IdManager * IdManager) :
  m_ids i.1.2 !! t = Some s → apply_id_effect (ids_layer t) i = i.
Proof.
  intros Ht. destruct i as [[c L] G]. cbn in *. by rewrite (getId_hit _ _ _ _ Ht).
Qed.

Lemma apply_ids_group_cached t s (i : N * IdManager * IdManager) :
  m_ids i.2 !! t = Some s → apply_id_effect (ids_group t) i = i.
Proof.
  intros Ht. destruct i as [[c L] G]. cbn in *. by rewrite (getId_hit _ _ _ _ Ht).
Qed.

Lemma cached_after_layerIds_getId t st :
  m_ids (m_layerIds (this (exec (layerIds_getId t) st))) !! t
  = Some (result (layerIds_getId t) st).
Proof.
  unfold exec, result. rewrite run_layerIds_getId. cbn. apply getId_cached.
Qed.

Lemma cached_after_groupIds_getId t st :
  m_ids (m_groupIds (this (exec (groupIds_getId t) st))) !! t
  = Some (result (groupIds_getId t) st).
Proof.
  unfold exec, result. rewrite run_groupIds_getId. cbn. apply getId_cached.
Qed.

(** X9: an id is drawn once for a node.  After a group or a layer has been
    written, writing it again or asking for a back reference to it, after
    any calls in between, leaves the counter and both managers as they
    are. *)
Theorem id_drawn_once (cs : list Call) st :
  (∀ (g : GroupNode) pp pp',
     let st' := exec (run_all cs) (exec (group g pp) st) in
     ids_of (exec (group g pp') st') = ids_of st'
     ∧ ids_of (exec (parentProperties (Some (GroupN g))) st') = ids_of st')
  ∧ (∀ (l : LayerNode),
       m_exporting (this st) && omitFromExport (layer l) = false →
       let st' := exec (run_all cs) (exec (customLayer l) st) in
       ids_of (exec (customLayer l) st') = ids_of st'
       ∧ ids_of (exec (parentProperties (Some (LayerN l))) st') = ids_of st').
Proof.
  split.
  - intros g pp pp' st'.
    assert (m_ids (m_groupIds (this st')) !! group_addr g
            = Some (result (groupIds_getId (group_addr g)) st)) as Hcached.
    { subst st'. rewrite exec_group, <- exec_run_all_cons.
      apply run_all_keeps, cached_after_groupIds_getId. }
    split.
    + change (group g pp') with (run (call_group g pp')).
      rewrite run_ids. cbn [id_effect].
      by eapply apply_ids_group_cached.
    + rewrite exec_parentProperties_group, ids_groupIds_getId.
      by eapply apply_ids_group_cached.
  - intros l Hc st'.
    assert (m_ids (m_layerIds (this st')) !! layer_addr l
            = Some (result (layerIds_getId (layer_addr l)) st)) as Hcached.
    { subst st'. rewrite (exec_customLayer _ _ Hc), <- exec_run_all_cons.
      apply run_all_keeps, cached_after_layerIds_getId. }
    split.
    + change (customLayer l) with (run (call_customLayer l)).
      rewrite run_ids. cbn [id_effect].
      destruct (m_exporting (this st') && _); [done|].
      by eapply apply_ids_layer_cached.
    + rewrite exec_parentProperties_layer, ids_layerIds_getId.
      by eapply apply_ids_layer_cached.
Qed.

(** X10: the world, its default layer, entities and brushes get no id:
    [defaultLayer], both overloads of [entity], [beginFile] and
    [parentProperties] of a node that is neither a layer nor a group leave
    the counter and both managers as they are, and so does [customLayer] for
    a layer that is left out of an export. *)
Theorem ids_drawn_for_layers_and_groups_only st :
  (∀ w, ids_of (exec (defaultLayer w) st) = ids_of st)
  ∧ (∀ node props pp brushParent,
       ids_of (exec (entity node props pp brushParent) st) = ids_of st)
  ∧ (∀ node props pp bs,
       ids_of (exec (entity_brushes node props pp bs) st) = ids_of st)
  ∧ (∀ rootNodes, ids_of (exec (beginFile rootNodes) st) = ids_of st)
  ∧ (∀ n, match n with LayerN _ | GroupN _ => False | _ => True end →
       exec (parentProperties (Some n)) st = st)
  ∧ (∀ (l : LayerNode),
       m_exporting (this st) = true → omitFromExport (layer l) = true →
       ids_of (exec (customLayer l) st) = ids_of st).
Proof.
  split; [intros; apply frames_defaultLayer|].
  split; [intros; apply frames_entity|].
  split; [intros; apply frames_entity_brushes|].
  split; [intros; apply frames_beginFile|].
  split.
  - intros [w|l|g|e|b] Hn; done.
  - intros l He Ho. change (customLayer l) with (run (call_customLayer l)).
    rewrite run_ids. cbn [id_effect]. by rewrite He, Ho.
Qed.

(** *** Entities as records of hook calls *)

Lemma events_of_nil {A} (m : M A) st :
  output (exec m st) = output st → events_of m st = [].
Proof. intros Ho. apply events_of_app. by rewrite app_nil_r. Qed.

Lemma ended_app evs1 evs2 : ended (evs1 ++ evs2) = ended evs1 + ended evs2.
Proof. unfold ended. by rewrite omap_app, length_app. Qed.

Lemma ended_props ps : ended (map doEntityProperty ps) = 0.
Proof. induction ps as [|p ps IH]; [done|]. exact IH. Qed.

Lemma ended_brushes bs : ended (map doBrush bs) = 0.
Proof. induction bs as [|b bs IH]; [done|]. exact IH. Qed.

Lemma ended_record r : is_record r → ended r = 1.
Proof.
  intros [node props bs]. rewrite !ended_app, ended_props, ended_brushes. reflexivity.
Qed.

Lemma ended_records n evs : is_records n evs → ended evs = n.
Proof.
  induction 1 as [|n r evs Hr _ IH]; [done|].
  by rewrite ended_app, (ended_record _ Hr), IH.
Qed.

(** One call that writes an entity adds nothing, or one record and one to
    the entity number. *)
Lemma writes_entity_step (c : Call) st :
  writes_entity c = true →
  ∃ evs, output (exec (run c) st) = output st ++ evs
    ∧ ((evs = [] ∧ m_entityNo (this (exec (run c) st)) = m_entityNo (this st))
       ∨ (is_record evs
          ∧ m_entityNo (this (exec (run c) st))
            = incr ObjectNo_bits (m_entityNo (this st)))).
Proof.
  destruct c; try discriminate; intros _; cbn [run].
  - eexists. split; [apply output_defaultLayer|]. right. split.
    + destruct (m_exporting (this st) && _);
        [apply (is_record_intro _ _ [])|apply is_record_intro].
    + unfold exec. rewrite run_defaultLayer.
      destruct (m_exporting (this st) && _);
        [by rewrite run_entity_shell|by rewrite run_entity].
  - destruct (m_exporting (this st) && omitFromExport (layer layer_)) eqn:Hc.
    + exists []. apply andb_true_iff in Hc as [He Ho].
      assert (customLayer layer_ st = (tt, st)) as Hrun.
      { unfold customLayer, mbind, M_bind, get_this. by rewrite He, Ho. }
      unfold exec. rewrite Hrun. cbn. rewrite app_nil_r. split; [done|]. by left.
    + eexists. split.
      * unfold exec. rewrite (run_customLayer _ _ Hc), run_entity.
        cbn [snd output]. rewrite output_getId_layer. reflexivity.
      * right. split.
        -- rewrite <- (map_map Some doBrush). apply is_record_intro.
        -- unfold exec. rewrite (run_customLayer _ _ Hc), run_entity.
           cbn [snd this set_entityNo m_entityNo]. unfold exec.
           by rewrite run_layerIds_getId.
  - eexists. split.
    + unfold exec. rewrite run_group, run_entity.
      cbn [snd output]. rewrite output_getId_group. reflexivity.
    + right. split.
      * rewrite <- (map_map Some doBrush). apply is_record_intro.
      * unfold exec. rewrite run_group, run_entity.
        cbn [snd this set_entityNo m_entityNo]. unfold exec.
        by rewrite run_groupIds_getId.
  - eexists. split; [unfold exec; rewrite run_entity; reflexivity|].
    right. split; [|unfold exec; by rewrite run_entity].
    rewrite <- (map_map Some doBrush). apply is_record_intro.
  - eexists. split; [unfold exec; rewrite run_entity_brushes; reflexivity|].
    right. split; [|unfold exec; by rewrite run_entity_brushes].
    apply is_record_intro.
Qed.

Lemma writes_entity_run_all (cs : list Call) st :
  forallb writes_entity cs = true →
  ∃ n evs, output (exec (run_all cs) st) = output st ++ evs
    ∧ is_records n evs ∧ (n ≤ length cs)%nat
    ∧ m_entityNo (this (exec (run_all cs) st)) = incr_n n (m_entityNo (this st)).
Proof.
  revert st. induction cs as [|c cs IH]; intros st Hcs.
  - exists 0, []. rewrite app_nil_r. repeat split; [constructor|done].
  - cbn in Hcs. apply andb_true_iff in Hcs as [Hc Hcs].
    destruct (writes_entity_step c st Hc) as (evs1 & Ho1 & Hstep).
    destruct (IH (exec (run c) st) Hcs) as (n & evs2 & Ho2 & Hrec & Hn & He).
    rewrite exec_run_all_cons, Ho2, Ho1, He, <- app_assoc.
    destruct Hstep as [[-> ->]|[Hr ->]].
    + exists n, evs2. repeat split; try done. cbn [length]. lia.
    + exists (S n), (evs1 ++ evs2). repeat split; try done.
      * by constructor.
      * cbn [length]. lia.
      * by rewrite incr_n_S.
Qed.

(** X11: a sequence of the calls that write whole entities ([defaultLayer],
    [customLayer], [group], both overloads of [entity]) calls the hooks in
    strict nesting: the hook calls are a run of records, each one
    [doBeginEntity], then properties only, then brushes only, then
    [doEndEntity] for the same node, at most one record for each call. *)
Theorem entities_are_written_as_records (cs : list Call) st :
  forallb writes_entity cs = true →
  ∃ n, is_records n (events_of (run_all cs) st) ∧ (n ≤ length cs)%nat.
Proof.
  intros Hcs. destruct (writes_entity_run_all cs st Hcs) as (n & evs & Ho & Hr & Hn & _).
  exists n. by rewrite (events_of_app _ _ _ Ho).
Qed.

(** X12: along such a sequence the entity number moves on by the number of
    entities written, the layers left out of an export not counted; right
    after [beginFile] it is that number, as long as it fits [ObjectNo]. *)
Theorem entityNo_counts_written_entities (cs : list Call) st :
  forallb writes_entity cs = true →
  let written := ended (events_of (run_all cs) st) in
  result entityNo (exec (run_all cs) st) = incr_n written (result entityNo st)
  ∧ ((result entityNo st + N.of_nat written < 2 ^ Npos ObjectNo_bits)%N →
     result entityNo (exec (run_all cs) st)
     = (result entityNo st + N.of_nat written)%N)
  ∧ (∀ rootNodes,
       let written' := ended (events_of (run_all cs) (exec (beginFile rootNodes) st)) in
       (N.of_nat written' < 2 ^ Npos ObjectNo_bits)%N →
       result entityNo (exec (run_all (call_beginFile rootNodes :: cs)) st)
       = N.of_nat written').
Proof.
  intros Hcs written.
  assert (∀ st0, result entityNo (exec (run_all cs) st0)
                 = incr_n (ended (events_of (run_all cs) st0)) (result entityNo st0))
    as Hcount.
  { intros st0.
    destruct (writes_entity_run_all cs st0 Hcs) as (n & evs & Ho & Hr & _ & He).
    rewrite (events_of_app _ _ _ Ho), (ended_records _ _ Hr).
    by rewrite !result_entityNo. }
  split; [apply Hcount|]. split.
  - intros Hroom. rewrite Hcount. by apply incr_n_below.
  - intros rootNodes written' Hroom. subst written'.
    rewrite exec_run_all_cons, Hcount.
    change (exec (run (call_beginFile rootNodes)) st) with (exec (beginFile rootNodes) st).
    change (result entityNo (exec (beginFile rootNodes) st)) with 0%N.
    rewrite incr_n_below; [reflexivity|]. lia.
Qed.

(** *** The ids in order *)

Lemma getId_all_cons self t ts c :
  getId_all self (t :: ts) c
  = let r := getId self t c in
    let rs := getId_all r.1.2 ts r.2 in
    (r.1.1 :: rs.1.1, rs.1.2, rs.2).
Proof.
  cbn [getId_all]. destruct (getId self t c) as [[s self'] c']. cbn.
  by destruct (getId_all self' ts c') as [[ss self''] c''].
Qed.

(** X13: ids are given in the order of the first requests and are the
    consecutive numbers from the counter on: a manager asked for the ids of
    nodes it does not know yet, all different, answers with the decimal
    forms of the counter, the counter plus one, and so on, and the counter
    ends that many higher (as long as the counter does not wrap around). *)
Theorem getId_all_consecutive (ts : list Addr) self c :
  NoDup ts →
  (∀ t, t ∈ ts → m_ids self !! t = None) →
  (c + N.of_nat (length ts) < 2 ^ Npos IdType_bits)%N →
  (getId_all self ts c).1.1
  = map (λ i, idToString (c + N.of_nat i)) (seq 0 (length ts))
  ∧ (getId_all self ts c).2 = (c + N.of_nat (length ts))%N.
Proof.
  revert self c. induction ts as [|t ts IH]; intros self c Hnd Hnew Hroom.
  - cbn. split; [done|lia].
  - apply NoDup_cons in Hnd as [Ht Hnd]. cbn [length] in *.
    rewrite Nat2N.inj_succ in Hroom.
    rewrite getId_all_cons, getId_miss by (apply Hnew; left).
    cbn [fst snd]. rewrite incr_below by lia.
    destruct (IH (mkIdManager (<[t:=idToString c]> (m_ids self))) (c + 1)%N Hnd)
      as [Hids Hc].
    { intros t' Ht'. cbn. rewrite lookup_insert_ne by (intros ->; done).
      apply Hnew. by right. }
    { lia. }
    rewrite Hids, Hc. split; [|lia].
    cbn [seq map]. rewrite N.add_0_r. f_equal.
    rewrite <- seq_shift, map_map. apply map_ext. intros i. f_equal. lia.
Qed.

Lemma ids_from_one_mono c c' ids :
  (c ≤ c')%N → ids_from_one c ids → ids_from_one c' ids.
Proof.
  intros Hle Hb t s Ht. destruct (Hb t s Ht) as (k & Hk & ->).
  exists k. split; [lia|done].
Qed.

Lemma getId_from_one self t c :
  ids_from_one c self → (1 ≤ c)%N → (c + 1 < 2 ^ Npos IdType_bits)%N →
  ids_from_one (getId self t c).2 (getId self t c).1.2
  ∧ (c ≤ (getId self t c).2 ≤ c + 1)%N.
Proof.
  intros Hb H1 Hroom. destruct (m_ids self !! t) as [s|] eqn:Ht.
  - rewrite (getId_hit _ _ _ _ Ht). cbn. split; [done|lia].
  - rewrite (getId_miss _ _ _ Ht). cbn. rewrite (incr_below _ _ Hroom).
    split; [|lia]. intros t' s. cbn. destruct (decide (t = t')) as [->|Hne].
    + rewrite lookup_insert_eq. intros [= <-]. exists c. split; [lia|done].
    + rewrite lookup_insert_ne by done. intros Ht'.
      destruct (Hb _ _ Ht') as (k & Hk & ->). exists k. split; [lia|done].
Qed.

Lemma run_from_one (c : Call) st :
  (1 ≤ currentId st)%N →
  ids_from_one (currentId st) (m_layerIds (this st)) →
  ids_from_one (currentId st) (m_groupIds (this st)) →
  (currentId st + 1 < 2 ^ Npos IdType_bits)%N →
  ids_from_one (currentId (exec (run c) st)) (m_layerIds (this (exec (run c) st)))
  ∧ ids_from_one (currentId (exec (run c) st)) (m_groupIds (this (exec (run c) st)))
  ∧ (currentId st ≤ currentId (exec (run c) st) ≤ currentId st + 1)%N.
Proof.
  intros H1 HL HG Hroom. pose proof (run_ids c st) as Hids.
  destruct (exec (run c) st) as [c' [e' b' x' L' G'] o'].
  destruct st as [c0 [e0 b0 x0 L G] o0]. cbn in *.
  destruct (id_effect c _); cbn in Hids; injection Hids as -> -> ->.
  - split; [done|]. split; [done|lia].
  - destruct (getId_from_one L t c0 HL H1 Hroom) as [HL' Hc'].
    split; [done|]. split; [|done]. eapply ids_from_one_mono; [apply Hc'|done].
  - destruct (getId_from_one G t c0 HG H1 Hroom) as [HG' Hc'].
    split; [|split; done]. eapply ids_from_one_mono; [apply Hc'|done].
  - rewrite (incr_below _ _ Hroom).
    split; [|split; [|lia]]; (eapply ids_from_one_mono; [|done]); lia.
Qed.

Lemma run_all_from_one (cs : list Call) st :
  (1 ≤ currentId st)%N →
  ids_from_one (currentId st) (m_layerIds (this st)) →
  ids_from_one (currentId st) (m_groupIds (this st)) →
  (currentId st + N.of_nat (length cs) < 2 ^ Npos IdType_bits)%N →
  ids_from_one (currentId (exec (run_all cs) st)) (m_layerIds (this (exec (run_all cs) st)))
  ∧ ids_from_one (currentId (exec (run_all cs) st))
      (m_groupIds (this (exec (run_all cs) st)))
  ∧ (currentId st ≤ currentId (exec (run_all cs) st)
     ≤ currentId st + N.of_nat (length cs))%N.
Proof.
  revert st. induction cs as [|c cs IH]; intros st H1 HL HG Hroom.
  - cbn. rewrite N.add_0_r. repeat split; try done; lia.
  - cbn [length] in *. rewrite Nat2N.inj_succ in *. rewrite exec_run_all_cons.
    destruct (run_from_one c st H1 HL HG) as (HL' & HG' & Hc'); [lia|].
    destruct (IH (exec (run c) st)) as (HL'' & HG'' & Hc''); try done; try lia.
    repeat split; try done; lia.
Qed.

Lemma idToString_zero k : idToString k = "0" → k = 0%N.
Proof. intros Hk. by apply idToString_inj. Qed.

(** X14: in a session of a new process the ids are the decimal forms of
    numbers from 1 up to, but not including, the counter, which has moved on
    by at most one for each call; so no node gets the id 0 (as long as the
    counter cannot have wrapped around). *)
Theorem session_ids_count_from_one (cs : list Call) :
  (N.of_nat (length cs) + 1 < 2 ^ Npos IdType_bits)%N →
  let st := exec (run_all cs) initial in
  (1 ≤ currentId st ≤ 1 + N.of_nat (length cs))%N
  ∧ ids_from_one (currentId st) (m_layerIds (this st))
  ∧ ids_from_one (currentId st) (m_groupIds (this st))
  ∧ ∀ t, m_ids (m_layerIds (this st)) !! t ≠ Some "0"
         ∧ m_ids (m_groupIds (this st)) !! t ≠ Some "0".
Proof.
  intros Hroom st.
  destruct (run_all_from_one cs initial) as (HL & HG & Hc).
  { cbn. lia. }
  { intros t s Ht. cbn in Ht. by rewrite lookup_empty in Ht. }
  { intros t s Ht. cbn in Ht. by rewrite lookup_empty in Ht. }
  { cbn. lia. }
  fold st in HL, HG, Hc. cbn [currentId initial] in Hc.
  split; [lia|]. split; [done|]. split; [done|].
  intros t. split; intros Ht.
  - destruct (HL _ _ Ht) as (k & Hk & Heq). symmetry in Heq.
    apply idToString_zero in Heq. lia.
  - destruct (HG _ _ Ht) as (k & Hk & Heq). symmetry in Heq.
    apply idToString_zero in Heq. lia.
Qed.

(** *** What is escaped *)

Lemma escaped_part_snoc s a :
  escaped_part (s +:+ String a "")
  = if decide (a = backslash)
    then if Nat.even (trailing_backslashes s) then s else s +:+ String a ""
    else s +:+ String a "".
Proof.
  unfold escaped_part. rewrite trailing_snoc, without_last_snoc.
  destruct (decide (a = backslash)); [|done].
  rewrite Nat.even_succ, <- Nat.negb_even. by destruct (Nat.even _).
Qed.

(** X15: the string that [escapeEntityProperties] hands to the escaping never
    ends with an odd number of backslashes; it is the argument itself or the
    argument without its last backslash, and it is a fixed point of the
    cutting. *)
Theorem escaped_part_ends_evenly (s : string) :
  escapeEntityProperties s = str_escape_if_necessary (escaped_part s) quote
  ∧ Nat.even (trailing_backslashes (escaped_part s)) = true
  ∧ (escaped_part s = s ∨ s = escaped_part s +:+ String backslash "")
  ∧ escaped_part (escaped_part s) = escaped_part s.
Proof.
  split; [apply escapeEntityProperties_eq|].
  assert (Nat.even (trailing_backslashes (escaped_part s)) = true) as Heven.
  { destruct (snoc_cases s) as [->|(s' & a & ->)]; [done|].
    rewrite escaped_part_snoc. destruct (decide (a = backslash)) as [->|Hne].
    - destruct (Nat.even (trailing_backslashes s')) eqn:He; [done|].
      rewrite trailing_snoc, decide_True by done.
      by rewrite Nat.even_succ, <- Nat.negb_even, He.
    - by rewrite trailing_snoc, decide_False. }
  split; [done|]. split.
  - destruct (snoc_cases s) as [->|(s' & a & ->)]; [by left|].
    rewrite escaped_part_snoc. destruct (decide (a = backslash)) as [->|Hne]; [|by left].
    destruct (Nat.even (trailing_backslashes s')); [by right|by left].
  - unfold escaped_part at 1. by rewrite Heven.
Qed.

(** *** The keys of a record *)

(** X16: the record of a layer and the record of a group hold no key twice,
    given that the keys of Model/EntityProperties.h that they can hold are
    different strings. *)
Theorem records_hold_no_key_twice st :
  (∀ l : LayerNode, NoDup layer_record_keys →
     NoDup (key <$> result (layerProperties l) st))
  ∧ (∀ g : GroupNode, NoDup group_record_keys →
       NoDup (key <$> result (groupProperties g) st)).
Proof.
  split.
  - intros l Hnd. unfold result. rewrite run_layerProperties. cbn [fst].
    apply (sublist_NoDup _ layer_record_keys); [exact Hnd|].
    unfold layer_record, layer_record_keys.
    destruct (sortIndex_opt (layer l)), (decide (layer_lockState l = Lock_Locked)),
      (layer_hidden l), (omitFromExport (layer l)); cbn;
      repeat first [apply sublist_nil | apply sublist_skip | apply sublist_cons].
  - intros g Hnd. unfold result. by rewrite run_groupProperties.
Qed.

(** A loop over a list put together from two parts runs the first part and then
    the second. *)
Lemma for_each_app {A} (a b : list A) (body : A → M unit) st :
  for_each (a ++ b) body st = for_each b body (exec (for_each a body) st).
Proof.
  revert st. induction a as [|x a IH]; intros st; [reflexivity|].
  cbn [app for_each]. unfold exec, mbind, M_bind in *.
  destruct (body x st) as [[] st1]. apply IH.
Qed.

(** X17: the three list-writing calls ([entityProperties], [brushes],
    [brushFaces]) can be split: writing a list at once leaves the serializer
    and the output as writing a first part and then the rest does.  And
    [brushFaces] hands the faces to [doBrushFace] one by one in the order given,
    changing neither a counter, nor the export flag, nor an id. *)
Theorem lists_written_in_parts st :
  (∀ a b, exec (entityProperties (a ++ b)) st
          = exec (entityProperties b) (exec (entityProperties a) st))
  ∧ (∀ a b, exec (brushes (a ++ b)) st = exec (brushes b) (exec (brushes a) st))
  ∧ (∀ a b, exec (brushFaces (a ++ b)) st
            = exec (brushFaces b) (exec (brushFaces a) st))
  ∧ (∀ faces, events_of (brushFaces faces) st = map doBrushFace faces
              ∧ this (exec (brushFaces faces) st) = this st
              ∧ currentId (exec (brushFaces faces) st) = currentId st).
Proof.
  split; [|split; [|split]].
  - intros a b. unfold entityProperties, exec at 1 2. by rewrite for_each_app.
  - intros a b. unfold brushes, exec at 1 2. by rewrite for_each_app.
  - intros a b. unfold brushFaces, exec at 1 2. by rewrite for_each_app.
  - intros faces. unfold events_of, exec. rewrite run_brushFaces. cbn [snd output this currentId].
    split; [|done]. by rewrite drop_app_length.
Qed.

End Further.

(** ** The rest of the serializer on concrete inputs *)

Section FurtherWitnesses.
#[local] Existing Instance sample_platform.
#[local] Existing Instance sample_keys.
#[local] Existing Instance sample_values.

Lemma brushes_counts_witness :
  let bs := [Some (mkBrushNode 11%N); None; Some (mkBrushNode 14%N)] in
  (result brushNo initial + N.of_nat (length bs) < 2 ^ Npos ObjectNo_bits)%N
  ∧ result brushNo (exec (brushes bs) initial) = 3%N.
Proof.
  cbn zeta. split; [reflexivity|].
  apply (brushes_counts [Some (mkBrushNode 11%N); None; Some (mkBrushNode 14%N)] initial).
  reflexivity.
Defined.

Lemma entity_counts_witness :
  (N.of_nat (length (brush_children (LayerN sample_layer))) < 2 ^ Npos ObjectNo_bits)%N
  ∧ result brushNo (exec (entity None [] [] (LayerN sample_layer)) initial) = 2%N.
Proof.
  split; [reflexivity|].
  apply (entity_counts None [] [] (LayerN sample_layer) initial). reflexivity.
Defined.

Lemma exporting_set_by_setExporting_only_witness :
  (sets_exporting (call_beginFile []) = false
   ∧ result exporting (exec (run (call_beginFile [])) (exec (setExporting true) initial))
     = true)
  ∧ (forallb (λ c, negb (sets_exporting c)) sample_session = true
     ∧ result exporting (exec (run_all sample_session) (exec (setExporting true) initial))
       = true).
Proof.
  pose proof exporting_set_by_setExporting_only as (_ & Hcall & Hcalls).
  split.
  - split; [reflexivity|]. apply (Hcall (call_beginFile [])). reflexivity.
  - split; [reflexivity|]. apply (Hcalls sample_session). reflexivity.
Defined.

Lemma layer_back_reference_matches_record_witness :
  m_exporting (this initial) && omitFromExport (layer sample_layer) = false
  ∧ result (parentProperties (Some (LayerN sample_layer)))
      (exec (run_all [call_group sample_group []]) (exec (customLayer sample_layer) initial))
    = [mkEntityProperty PropertyKeys.Layer "1"].
Proof.
  split; [reflexivity|].
  apply (layer_back_reference_matches_record sample_layer [call_group sample_group []]
           initial).
  reflexivity.
Defined.

Lemma id_drawn_once_witness :
  let st' := exec (run_all [call_group sample_group []])
               (exec (customLayer sample_layer) initial) in
  m_exporting (this initial) && omitFromExport (layer sample_layer) = false
  ∧ ids_of (exec (customLayer sample_layer) st') = ids_of st'.
Proof.
  cbn zeta. split; [reflexivity|].
  apply (id_drawn_once [call_group sample_group []] initial). reflexivity.
Defined.

Lemma ids_drawn_for_layers_and_groups_only_witness :
  let st := exec (setExporting true) initial in
  (exec (parentProperties (Some (World sample_world))) st = st)
  ∧ (m_exporting (this st) = true ∧ omitFromExport (layer sample_layer) = true
     ∧ ids_of (exec (customLayer sample_layer) st) = ids_of st).
Proof.
  cbn zeta.
  pose proof (ids_drawn_for_layers_and_groups_only (exec (setExporting true) initial))
    as (_ & _ & _ & _ & Hnode & Hskip).
  split.
  - apply (Hnode (World sample_world)). exact I.
  - split; [reflexivity|]. split; [reflexivity|]. apply Hskip; reflexivity.
Defined.

Lemma entities_are_written_as_records_witness :
  let cs := [call_defaultLayer sample_world; call_customLayer sample_layer;
             call_group sample_group []] in
  forallb writes_entity cs = true
  ∧ ∃ n, is_records n (events_of (run_all cs) (exec (setExporting true) initial))
         ∧ (n ≤ length cs)%nat.
Proof.
  cbn zeta. split; [reflexivity|].
  apply entities_are_written_as_records. reflexivity.
Defined.

Lemma entityNo_counts_written_entities_witness :
  let cs := [call_defaultLayer sample_world; call_customLayer sample_layer;
             call_group sample_group []] in
  let st := exec (setExporting true) initial in
  forallb writes_entity cs = true
  ∧ ended (events_of (run_all cs) (exec (beginFile []) st)) = 2
  ∧ result entityNo (exec (run_all (call_beginFile [] :: cs)) st) = 2%N.
Proof.
  cbn zeta. split; [reflexivity|]. split; [reflexivity|].
  pose proof (entityNo_counts_written_entities
                [call_defaultLayer sample_world; call_customLayer sample_layer;
                 call_group sample_group []]
                (exec (setExporting true) initial) eq_refl) as (_ & _ & Hfile).
  apply (Hfile []). reflexivity.
Defined.

Lemma getId_all_consecutive_witness :
  NoDup [10%N; 30%N; 20%N]
  ∧ (∀ t, t ∈ [10%N; 30%N; 20%N] → m_ids (mkIdManager ∅) !! t = None)
  ∧ (5 + N.of_nat 3 < 2 ^ Npos IdType_bits)%N
  ∧ (getId_all (mkIdManager ∅) [10%N; 30%N; 20%N] 5).1.1 = ["5"; "6"; "7"].
Proof.
  assert (NoDup [10%N; 30%N; 20%N]) as Hnd.
  { apply (bool_decide_unpack _). vm_compute. exact I. }
  assert (∀ t : Addr, t ∈ [10%N; 30%N; 20%N] → m_ids (mkIdManager ∅) !! t = None)
    as Hnew.
  { intros t _. apply lookup_empty. }
  split; [exact Hnd|]. split; [exact Hnew|]. split; [reflexivity|].
  apply (getId_all_consecutive [10%N; 30%N; 20%N] (mkIdManager ∅) 5 Hnd Hnew).
  reflexivity.
Defined.

Lemma session_ids_count_from_one_witness :
  let st := exec (run_all sample_session) initial in
  (N.of_nat (length sample_session) + 1 < 2 ^ Npos IdType_bits)%N
  ∧ (1 ≤ currentId st ≤ 1 + N.of_nat (length sample_session))%N
  ∧ ∀ t, m_ids (m_layerIds (this st)) !! t ≠ Some "0"
         ∧ m_ids (m_groupIds (this st)) !! t ≠ Some "0".
Proof.
  cbn zeta. split; [reflexivity|].
  pose proof (session_ids_count_from_one sample_session eq_refl) as (Hc & _ & _ & Hzero).
  split; [exact Hc|exact Hzero].
Defined.

Lemma records_hold_no_key_twice_witness :
  (NoDup layer_record_keys
   ∧ NoDup (key <$> result (layerProperties sample_layer) initial))
  ∧ (NoDup group_record_keys
     ∧ NoDup (key <$> result (groupProperties sample_group) initial)).
Proof.
  pose proof (records_hold_no_key_twice initial) as (Hlayer & Hgroup).
  assert (NoDup layer_record_keys) as HL.
  { apply (bool_decide_unpack _). vm_compute. exact I. }
  assert (NoDup group_record_keys) as HG.
  { apply (bool_decide_unpack _). vm_compute. exact I. }
  split; (split; [done|]); [by apply Hlayer|by apply Hgroup].
Defined.

End FurtherWitnesses.
